(** * Dynamic Highlights: a shallow embedding of the two highlighters

    This development models the selection highlighter
    ([matchHighlighter] in the selection-match module) and the static
    highlighter ([staticHighlighter] in [src/highlighters/static.ts]) of the
    Obsidian "Dynamic Highlights" plugin, and proves properties of them.

    Text is modelled as a list of ASCII characters: the document is a
    [list ascii], offsets are [nat].  JavaScript numbers coming from the
    configuration ([minSelectionLength], [maxMatches], [highlightDelay]) are
    modelled as [Z]. *)

From Stdlib Require Import Ascii String List ZArith Bool Lia Sorted Permutation.
Import ListNotations.
Open Scope bool_scope.

(* ------------------------------------------------------------------ *)
(** ** Text primitives *)

Module Text.

Definition doc := list ascii.

(** [state.sliceDoc(from, to)]. *)
Definition slice (d : doc) (from to : nat) : list ascii :=
  firstn (to - from) (skipn from d).

(** [String.prototype.toLowerCase] on one ASCII character. *)
Definition lower_ascii (c : ascii) : ascii :=
  let n := nat_of_ascii c in
  if (65 <=? n) && (n <=? 90) then ascii_of_nat (n + 32) else c.

Definition lower (s : list ascii) : list ascii := map lower_ascii s.

(** Whitespace as recognised by [/\s/] and [String.prototype.trim]
    (ASCII part). *)
Definition is_space (c : ascii) : bool :=
  let n := nat_of_ascii c in
  (n =? 32) || (n =? 9) || (n =? 10) || (n =? 11) || (n =? 12) || (n =? 13).

(** Word characters of CodeMirror's categorizer ([\p{Alphabetic}],
    [\p{Number}] and [_]), ASCII part. *)
Definition is_word_char (c : ascii) : bool :=
  let n := nat_of_ascii c in
  ((48 <=? n) && (n <=? 57)) || ((65 <=? n) && (n <=? 90))
  || ((97 <=? n) && (n <=? 122)) || (n =? 95).

Fixpoint drop_spaces (l : list ascii) : list ascii :=
  match l with
  | c :: l' => if is_space c then drop_spaces l' else l
  | [] => []
  end.

(** [String.prototype.trim]. *)
Definition trim (l : list ascii) : list ascii :=
  rev (drop_spaces (rev (drop_spaces l))).

(** [String.prototype.split(sep)]. *)
Fixpoint split_on (sep : ascii) (l : list ascii) : list (list ascii) :=
  match l with
  | [] => [[]]
  | c :: l' =>
      let r := split_on sep l' in
      if ascii_dec c sep then [] :: r
      else match r with
           | w :: ws => (c :: w) :: ws
           | [] => [[c]]
           end
  end.

Definition leqb (a b : list ascii) : bool :=
  if list_eq_dec ascii_dec a b then true else false.

(** [CharCategory] of [@codemirror/state]. *)
Inductive CharCategory := Word | Space | Other.

(** [makeCategorizer("")]: a string with no non-space character is
    [Space]; one containing a word character is [Word]; otherwise
    [Other].  The language data of the document is taken to add no extra
    word characters. *)
Definition categorize (s : list ascii) : CharCategory :=
  if forallb is_space s then Space
  else if existsb is_word_char s then Word
  else Other.

Definition is_word_slice (d : doc) (i j : nat) : bool :=
  match categorize (slice d i j) with Word => true | _ => false end.

Definition is_word_at (d : doc) (i : nat) : bool :=
  match nth_error d i with Some c => is_word_char c | None => false end.

(** [state.wordAt(pos)]: the maximal run of word characters around [pos]
    ([None] when it is empty).  Line breaks are not word characters, so the
    run never leaves the line, as in CodeMirror. *)
Fixpoint word_left (d : doc) (p : nat) : nat :=
  match p with
  | 0 => 0
  | S p' => if is_word_at d p' then word_left d p' else p
  end.

Fixpoint word_right_fuel (d : doc) (fuel p : nat) : nat :=
  match fuel with
  | 0 => p
  | S fuel' => if is_word_at d p then word_right_fuel d fuel' (S p) else p
  end.

Definition word_right (d : doc) (p : nat) : nat :=
  word_right_fuel d (length d - p) p.

Definition wordAt (d : doc) (pos : nat) : option (nat * nat) :=
  let a := word_left d pos in
  let b := word_right d pos in
  if a =? b then None else Some (a, b).

(** [new SearchCursor(doc, query, from, to, normalize)] consumed with
    [next()]: the leftmost occurrence of the normalised query inside
    [[from, to)], then the search resumes at the end of that occurrence
    (matches do not overlap).  An empty query matches nothing. *)
Fixpoint search_from (norm : ascii -> ascii) (d : doc) (q : list ascii)
    (fuel i to : nat) : list (nat * nat) :=
  match fuel with
  | 0 => []
  | S fuel' =>
      if i + length q <=? to then
        if leqb (map norm (slice d i (i + length q))) (map norm q)
        then (i, i + length q) :: search_from norm d q fuel' (i + length q) to
        else search_from norm d q fuel' (S i) to
      else []
  end.

Definition search_cursor (norm : ascii -> ascii) (d : doc) (q : list ascii)
    (from to : nat) : list (nat * nat) :=
  match q with
  | [] => []
  | _ => search_from norm d q (S (to - from)) from to
  end.

End Text.

(* ------------------------------------------------------------------ *)
(** ** The selection highlighter ([matchHighlighter.getDeco]) *)

Module Selection.
Import Text.

Record SelectionHighlightOptions := {
  highlightWordAroundCursor : bool;
  highlightSelectedText : bool;
  minSelectionLength : Z;
  maxMatches : Z;
  ignoredWords : list ascii;
  highlightDelay : Z
}.

(** A selection range; [from]/[to] are the smaller/larger of anchor and
    head. *)
Record SelRange := { anchor : nat; head : nat }.

Definition rfrom (r : SelRange) : nat := Nat.min (anchor r) (head r).
Definition rto (r : SelRange) : nat := Nat.max (anchor r) (head r).
Definition rempty (r : SelRange) : bool := rfrom r =? rto r.

Record EditorSelection := { ranges : list SelRange; mainIndex : nat }.

Definition main (s : EditorSelection) : SelRange :=
  nth (mainIndex s) (ranges s) {| anchor := 0; head := 0 |}.

Inductive MatchType := MWord | MString.

Definition matchType_name (m : MatchType) : string :=
  match m with MWord => "word" | MString => "string" end%string.

(** The query computed from the selection: its text, whether a character
    categorizer [check] is set (word mode), the match type and the main
    range. *)
Record SelQuery := {
  sq_text : list ascii;
  sq_check : bool;
  sq_type : MatchType;
  sq_range : SelRange
}.

(** [new Set(conf.ignoredWords.split(",").map(w => w.toLowerCase().trim()))
    .has(query.toLowerCase())]. *)
Definition is_ignored (ignored : list ascii) (query : list ascii) : bool :=
  existsb (fun w => leqb (trim (lower w)) (lower query))
    (split_on "," ignored).

(** The first half of [getDeco]: every early [return Decoration.none] is
    [None]. *)
Definition selection_query (conf : SelectionHighlightOptions) (d : doc)
    (sel : EditorSelection) : option SelQuery :=
  if 1 <? length (ranges sel) then None else
  let range := main sel in
  if rempty range then
    if negb (highlightWordAroundCursor conf) then None else
    match wordAt d (head range) with
    | None => None
    | Some (wf, wt) =>
        let query := slice d wf wt in
        if is_ignored (ignoredWords conf) query
           || (Z.of_nat (length query) <? minSelectionLength conf)%Z
        then None
        else Some {| sq_text := query; sq_check := true;
                     sq_type := MWord; sq_range := range |}
    end
  else
    if negb (highlightSelectedText conf) then None else
    let len := Z.of_nat (rto range - rfrom range) in
    if ((len <? minSelectionLength conf) || (200 <? len))%Z then None else
    let query := trim (slice d (rfrom range) (rto range)) in
    match query with
    | [] => None
    | _ => Some {| sq_text := query; sq_check := false;
                   sq_type := MString; sq_range := range |}
    end.

(** The whole-word test of the inner loop:
    [!check || ((from == 0 || check(prev) != Word) &&
                (to == doc.length || check(next) != Word))]. *)
Definition accept (check : bool) (d : doc) (f t : nat) : bool :=
  negb check
  || (((f =? 0) || negb (is_word_slice d (f - 1) f))
      && ((t =? length d) || negb (is_word_slice d t (t + 1)))).

(** A mark decoration [cm-...] with its [data-contents] attribute. *)
Record SelDeco := {
  sd_from : nat;
  sd_to : nat;
  sd_class : string;
  sd_contents : list ascii
}.

(** The classification of an accepted occurrence: [cm-current-*] when
    [check && from <= range.from && to >= range.to], else [cm-matched-*]
    when [from >= range.to || to <= range.from], else nothing. *)
Definition classify (sq : SelQuery) (d : doc) (f t : nat) : option SelDeco :=
  let r := sq_range sq in
  let s := trim (slice d f t) in
  if sq_check sq && (f <=? rfrom r) && (rto r <=? t) then
    Some {| sd_from := f; sd_to := t;
            sd_class := ("cm-current-" ++ matchType_name (sq_type sq))%string;
            sd_contents := s |}
  else if (rto r <=? f) || (t <=? rfrom r) then
    Some {| sd_from := f; sd_to := t;
            sd_class := ("cm-matched-" ++ matchType_name (sq_type sq))%string;
            sd_contents := s |}
  else None.

Definition push_opt (deco : list SelDeco) (o : option SelDeco) : list SelDeco :=
  match o with Some x => deco ++ [x] | None => deco end.

(** The [while (!cursor.next().done)] loop over one visible range; [None]
    is the early [return Decoration.none] once [deco.length > maxMatches]. *)
Fixpoint scan_part (conf : SelectionHighlightOptions) (sq : SelQuery) (d : doc)
    (ms : list (nat * nat)) (deco : list SelDeco) : option (list SelDeco) :=
  match ms with
  | [] => Some deco
  | (f, t) :: ms' =>
      if accept (sq_check sq) d f t then
        let deco' := push_opt deco (classify sq d f t) in
        if (maxMatches conf <? Z.of_nat (length deco'))%Z then None
        else scan_part conf sq d ms' deco'
      else scan_part conf sq d ms' deco
  end.

(** The cursor of one visible range [part]: case-insensitive search. *)
Definition part_matches (sq : SelQuery) (d : doc) (part : nat * nat)
    : list (nat * nat) :=
  search_cursor lower_ascii d (sq_text sq) (fst part) (snd part).

(** [for (let part of view.visibleRanges)]. *)
Fixpoint scan_parts (conf : SelectionHighlightOptions) (sq : SelQuery) (d : doc)
    (parts : list (nat * nat)) (deco : list SelDeco) : option (list SelDeco) :=
  match parts with
  | [] => Some deco
  | part :: parts' =>
      match scan_part conf sq d (part_matches sq d part) deco with
      | None => None
      | Some deco' => scan_parts conf sq d parts' deco'
      end
  end.

(** [getDeco]: the decorations of the selection highlighter ([[]] is
    [Decoration.none]).  Its first line only refreshes the debouncer. *)
Definition getDeco (conf : SelectionHighlightOptions) (d : doc)
    (visibleRanges : list (nat * nat)) (sel : EditorSelection) : list SelDeco :=
  match selection_query conf d sel with
  | None => []
  | Some sq =>
      match scan_parts conf sq d visibleRanges [] with
      | None => []
      | Some deco =>
          if (Z.of_nat (length deco) <? (if rempty (sq_range sq) then 2 else 1))%Z
          then [] else deco
      end
  end.

(** Auxiliary views of the loop used to state its properties. *)

(** Every occurrence found by the cursors of the visible ranges. *)
Definition selection_matches (sq : SelQuery) (d : doc) (parts : list (nat * nat))
    : list (nat * nat) :=
  flat_map (part_matches sq d) parts.

(** The decorations the loop pushes for [ms], ignoring the [maxMatches]
    abort. *)
Fixpoint emitted (sq : SelQuery) (d : doc) (ms : list (nat * nat)) : list SelDeco :=
  match ms with
  | [] => []
  | (f, t) :: ms' =>
      if accept (sq_check sq) d f t
      then push_opt [] (classify sq d f t) ++ emitted sq d ms'
      else emitted sq d ms'
  end.

Definition collected (sq : SelQuery) (d : doc) (parts : list (nat * nat)) : list SelDeco :=
  emitted sq d (selection_matches sq d parts).

Definition any_accepted (sq : SelQuery) (d : doc) (ms : list (nat * nat)) : bool :=
  existsb (fun ft => accept (sq_check sq) d (fst ft) (snd ft)) ms.

(** The final minimum: 2 for a caret, 1 for a selection. *)
Definition threshold (sq : SelQuery) : Z :=
  if rempty (sq_range sq) then 2%Z else 1%Z.

(** The whole-word, case-insensitive occurrences of [w] found in the
    visible ranges. *)
Definition word_occurrences (d : doc) (w : list ascii) (parts : list (nat * nat))
    : list (nat * nat) :=
  filter (fun ft => accept true d (fst ft) (snd ft))
    (flat_map (fun part => search_cursor lower_ascii d w (fst part) (snd part)) parts).

Definition with_maxMatches (conf : SelectionHighlightOptions) (m : Z)
    : SelectionHighlightOptions :=
  {| highlightWordAroundCursor := highlightWordAroundCursor conf;
     highlightSelectedText := highlightSelectedText conf;
     minSelectionLength := minSelectionLength conf;
     maxMatches := m;
     ignoredWords := ignoredWords conf;
     highlightDelay := highlightDelay conf |}.

End Selection.

(* ------------------------------------------------------------------ *)
(** ** The static highlighter ([staticHighlighter.getDeco]) *)

Module Static.
Import Text.
Local Open Scope string_scope.
Local Open Scope nat_scope.

(** The mark modes of a [SearchQuery]. *)
Inductive MarkMode := MMatch | MLine | MStart | MEnd | MGroup.

Definition markmode_eqb (a b : MarkMode) : bool :=
  match a, b with
  | MMatch, MMatch | MLine, MLine | MStart, MStart
  | MEnd, MEnd | MGroup, MGroup => true
  | _, _ => false
  end.

(** A rule of [SearchQueries]; [q_mark] is [undefined] when [None]. *)
Record SearchQuery := {
  q_class : string;
  q_color : option string;
  q_regex : bool;
  q_query : list ascii;
  q_mark : option (list MarkMode)
}.

(** [query.mark?.contains(m)]: falsy when [mark] is absent. *)
Definition contains (mark : option (list MarkMode)) (m : MarkMode) : bool :=
  match mark with
  | Some l => existsb (markmode_eqb m) l
  | None => false
  end.

(** [cursor.value]: the span and, for a regular-expression cursor,
    [match.indices?.groups] (a group with no recorded indices is [None]). *)
Record CursorMatch := {
  cm_from : nat;
  cm_to : nat;
  cm_groups : option (list (string * option (nat * nat)))
}.

(** [new RegExpCursor(doc, query, {}, from, to)]: [None] when the
    construction throws. *)
Definition RegExpCursor := list ascii -> doc -> nat -> nat -> option (list CursorMatch).

(** Decorations: [Decoration.mark({class, attributes})],
    [Decoration.line({attributes: {class}})] and
    [Decoration.widget({widget: new IconWidget(class)})]. *)
Definition Attrs := list (string * string).

Inductive Deco :=
| DMark (cls : string) (attrs : option Attrs)
| DLine (cls : string)
| DWidget (cls : string).

Inductive DecoType := TMark | TLine | TWidget.

Definition type_name (t : DecoType) : string :=
  match t with TMark => "mark" | TLine => "line" | TWidget => "widget" end%string.

(** [decoration.range(from, to)]. *)
Record Region := { r_from : nat; r_to : nat; r_deco : Deco }.

(** [JSON.stringify] of a string's characters. *)
Definition str1 (c : ascii) : string := String c EmptyString.

Definition hex_digit (n : nat) : ascii :=
  ascii_of_nat (if n <? 10 then 48 + n else 87 + n).

Definition json_escape_char (c : ascii) : string :=
  let n := nat_of_ascii c in
  let bs := str1 "092" in
  if n =? 34 then bs ++ str1 "034"
  else if n =? 92 then bs ++ bs
  else if n =? 8 then bs ++ "b"
  else if n =? 12 then bs ++ "f"
  else if n =? 10 then bs ++ "n"
  else if n =? 13 then bs ++ "r"
  else if n =? 9 then bs ++ "t"
  else if n <? 32 then bs ++ "u00" ++ str1 (hex_digit (n / 16)) ++ str1 (hex_digit (n mod 16))
  else str1 c.

Fixpoint json_escape (s : string) : string :=
  match s with
  | EmptyString => EmptyString
  | String c s' => json_escape_char c ++ json_escape s'
  end.

Definition json_string (s : string) : string :=
  str1 "034" ++ json_escape s ++ str1 "034".

(** [JSON.stringify(attributes || {})]. *)
Definition json_of_attrs (attrs : option Attrs) : string :=
  match attrs with
  | None => "{}"
  | Some kvs =>
      "{" ++ String.concat ","
               (map (fun kv => json_string (fst kv) ++ ":" ++ json_string (snd kv)) kvs)
      ++ "}"
  end.

(** The key [`${type}-${className}-${JSON.stringify(attributes || {})}`]. *)
Definition cache_key (t : DecoType) (cls : string) (attrs : option Attrs) : string :=
  type_name t ++ "-" ++ cls ++ "-" ++ json_of_attrs attrs.

(** [decorationCache]: a [Map] in insertion order. *)
Definition Cache := list (string * Deco).

Fixpoint cache_get (k : string) (c : Cache) : option Deco :=
  match c with
  | [] => None
  | (k', v) :: c' => if String.eqb k k' then Some v else cache_get k c'
  end.

(** The scanner's effects: the shared [decorationPool] is threaded as
    state and survives an exception; [inl] is a thrown error. *)
Definition M (A : Type) := Cache -> (string + A) * Cache.

Definition ret {A} (a : A) : M A := fun c => (inr a, c).

Definition bind {A B} (m : M A) (k : A -> M B) : M B :=
  fun c => match m c with
           | (inl e, c') => (inl e, c')
           | (inr a, c') => k a c'
           end.

Definition throw {A} (e : string) : M A := fun c => (inl e, c).

Definition try_catch {A} (m : M A) (h : string -> M A) : M A :=
  fun c => match m c with
           | (inl e, c') => h e c'
           | r => r
           end.

Notation "x <- m ;; k" := (bind m (fun x => k))
  (at level 61, m at next level, right associativity).

Definition make_decoration (t : DecoType) (cls : string) (attrs : option Attrs) : Deco :=
  match t with
  | TMark => DMark cls attrs
  | TLine => DLine cls
  | TWidget => DWidget cls
  end.

(** [DecorationPool.getDecoration]. *)
Definition getDecoration (t : DecoType) (cls : string) (attrs : option Attrs) : M Deco :=
  fun c =>
    let key := cache_key t cls attrs in
    match cache_get key c with
    | Some dd => (inr dd, c)
    | None => let dd := make_decoration t cls attrs in (inr dd, app c [(key, dd)])
    end.

(** [DecorationPool.createRange], i.e. [decoration.range(from, to)]:
    CodeMirror refuses empty mark ranges and non-empty line ranges. *)
Definition createRange (dd : Deco) (from to : nat) : M Region :=
  match dd with
  | DMark _ _ =>
      if to <=? from then throw "Mark decorations may not be empty"
      else ret {| r_from := from; r_to := to; r_deco := dd |}
  | DLine _ =>
      if negb (from =? to) then throw "Line decoration ranges must be zero-length"
      else ret {| r_from := from; r_to := to; r_deco := dd |}
  | DWidget _ => ret {| r_from := from; r_to := to; r_deco := dd |}
  end.

(** [DecorationPool.cleanup]: above 100 entries keep the last 50. *)
Definition cleanup (c : Cache) : Cache :=
  if 100 <? length c then skipn (length c - 50) c else c.

Definition cleanup_m : M unit := fun c => (inr tt, cleanup c).

(** [view.state.doc.lineAt(pos).from]. *)
Fixpoint line_start (d : doc) (p : nat) : nat :=
  match p with
  | 0 => 0
  | S p' =>
      match nth_error d p' with
      | Some c => if Ascii.eqb c "010"%char then p else line_start d p'
      | None => line_start d p'
      end
  end.

(** The syntax tree is external: [node_props pos] is
    [syntaxTree(state).resolveInner(pos).type.prop(tokenClassNodeProp)]. *)
Definition NodeProps := nat -> option (list ascii).

(** [["hmd-codeblock", "hmd-frontmatter"].find(t => nodeProps?.split(" ").includes(t))]. *)
Definition excluded_section (node_props : NodeProps) (pos : nat) : bool :=
  match node_props pos with
  | None => false
  | Some props =>
      let toks := split_on " " props in
      existsb (fun tk => existsb (leqb tk) toks)
        [list_ascii_of_string "hmd-codeblock"; list_ascii_of_string "hmd-frontmatter"]
  end.

(** The local arrays of [getDeco]; [lineClasses] is an object with integer
    keys, whose entries are enumerated in increasing key order. *)
Record Acc := {
  tokenDecos : list Region;
  groupDecos : list Region;
  widgetDecos : list Region;
  lineClasses : list (nat * list string)
}.

Definition empty_acc : Acc :=
  {| tokenDecos := []; groupDecos := []; widgetDecos := []; lineClasses := [] |}.

Definition push_token (r : Region) (a : Acc) : Acc :=
  {| tokenDecos := app (tokenDecos a) [r]; groupDecos := groupDecos a;
     widgetDecos := widgetDecos a; lineClasses := lineClasses a |}.
Definition push_group (r : Region) (a : Acc) : Acc :=
  {| tokenDecos := tokenDecos a; groupDecos := app (groupDecos a) [r];
     widgetDecos := widgetDecos a; lineClasses := lineClasses a |}.
Definition push_widget (r : Region) (a : Acc) : Acc :=
  {| tokenDecos := tokenDecos a; groupDecos := groupDecos a;
     widgetDecos := app (widgetDecos a) [r]; lineClasses := lineClasses a |}.

(** [if (!lineClasses[k]) lineClasses[k] = []; lineClasses[k].push(cls)]. *)
Fixpoint add_line_class (k : nat) (cls : string) (lc : list (nat * list string))
    : list (nat * list string) :=
  match lc with
  | [] => [(k, [cls])]
  | (k', cs) :: lc' =>
      if k' =? k then (k', app cs [cls]) :: lc'
      else if k <? k' then (k, [cls]) :: lc
      else (k', cs) :: add_line_class k cls lc'
  end.

Definition with_line_class (k : nat) (cls : string) (a : Acc) : Acc :=
  {| tokenDecos := tokenDecos a; groupDecos := groupDecos a;
     widgetDecos := widgetDecos a; lineClasses := add_line_class k cls (lineClasses a) |}.

(** One [forEach] step over [Object.entries(groups)]: the destructuring
    [[groupName, [groupFrom, groupTo]]] throws when the indices are missing,
    and the [catch] skips that group. *)
Definition process_group (linePos : nat) (acc : Acc)
    (g : string * option (nat * nat)) : M Acc :=
  try_catch
    (match snd g with
     | None => throw "TypeError: undefined is not iterable"
     | Some (groupFrom, groupTo) =>
         groupDeco <- getDecoration TMark (fst g) None ;;
         r <- createRange groupDeco (linePos + groupFrom) (linePos + groupTo) ;;
         ret (push_group r acc)
     end)
    (fun _ => ret acc).

Fixpoint process_groups (linePos : nat) (gs : list (string * option (nat * nat)))
    (acc : Acc) : M Acc :=
  match gs with
  | [] => ret acc
  | g :: gs' => acc' <- process_group linePos acc g ;; process_groups linePos gs' acc'
  end.

(** The body of [while (!cursor.next().done)] for one match. *)
Definition process_match (node_props : NodeProps) (d : doc) (query : SearchQuery)
    (m : CursorMatch) (acc : Acc) : M Acc :=
  let from := cm_from m in
  let to := cm_to m in
  let s := string_of_list_ascii (trim (slice d from to)) in
  let linePos := line_start d from in
  let mark := q_mark query in
  let cls := q_class query in
  if excluded_section node_props (linePos + 1) then ret acc else
  let acc1 := if contains mark MLine then with_line_class linePos cls acc else acc in
  acc2 <- (if negb (match mark with Some _ => true | None => false end)
              || contains mark MMatch then
             markDeco <- getDecoration TMark cls (Some [("data-contents", s)]) ;;
             r <- createRange markDeco from to ;;
             ret (push_token r acc1)
           else ret acc1) ;;
  acc3 <- (if contains mark MStart || contains mark MEnd then
             startDeco <- getDecoration TWidget (cls ++ "-start") None ;;
             endDeco <- getDecoration TWidget (cls ++ "-end") None ;;
             a <- (if contains mark MStart then
                     r <- createRange startDeco from from ;; ret (push_widget r acc2)
                   else ret acc2) ;;
             (if contains mark MEnd then
                r <- createRange endDeco to to ;; ret (push_widget r a)
              else ret a)
           else ret acc2) ;;
  if contains mark MGroup then
    match cm_groups m with
    | None => ret acc3
    | Some gs => process_groups linePos gs acc3
    end
  else ret acc3.

Fixpoint scan_matches (node_props : NodeProps) (d : doc) (query : SearchQuery)
    (ms : list CursorMatch) (acc : Acc) : M Acc :=
  match ms with
  | [] => ret acc
  | m :: ms' => acc' <- process_match node_props d query m acc ;;
                scan_matches node_props d query ms' acc'
  end.

(** The cursor of a rule over one visible range: a [RegExpCursor] for a
    regular expression, else a case-sensitive [SearchCursor] (whose value
    has no [match], so no groups). *)
Definition make_cursor (rx : RegExpCursor) (d : doc) (query : SearchQuery)
    (part : nat * nat) : option (list CursorMatch) :=
  if q_regex query then rx (q_query query) d (fst part) (snd part)
  else Some (map (fun ft => {| cm_from := fst ft; cm_to := snd ft; cm_groups := None |})
                 (search_cursor (fun c => c) d (q_query query) (fst part) (snd part))).

(** [for (let query of queries)]; a failed construction is [continue]d. *)
Fixpoint scan_queries (rx : RegExpCursor) (node_props : NodeProps) (d : doc)
    (part : nat * nat) (queries : list SearchQuery) (acc : Acc) : M Acc :=
  match queries with
  | [] => ret acc
  | query :: queries' =>
      match make_cursor rx d query part with
      | None => scan_queries rx node_props d part queries' acc
      | Some ms =>
          acc' <- scan_matches node_props d query ms acc ;;
          scan_queries rx node_props d part queries' acc'
      end
  end.

(** [for (let part of view.visibleRanges)]. *)
Fixpoint scan_parts (rx : RegExpCursor) (node_props : NodeProps) (d : doc)
    (parts : list (nat * nat)) (queries : list SearchQuery) (acc : Acc) : M Acc :=
  match parts with
  | [] => ret acc
  | part :: parts' =>
      acc' <- scan_queries rx node_props d part queries acc ;;
      scan_parts rx node_props d parts' queries acc'
  end.

(** [Object.entries(lineClasses).forEach(...)]. *)
Fixpoint line_regions (lc : list (nat * list string)) : M (list Region) :=
  match lc with
  | [] => ret []
  | (pos, classes) :: lc' =>
      lineDeco <- getDecoration TLine (String.concat " " classes) None ;;
      r <- createRange lineDeco pos pos ;;
      rs <- line_regions lc' ;;
      ret (r :: rs)
  end.

(** [Array.prototype.sort((a, b) => a.from - b.from)]: a stable sort on
    [from] (insertion sort; a stable sort's result is unique). *)
Fixpoint insert_by_from (x : Region) (l : list Region) : list Region :=
  match l with
  | [] => [x]
  | y :: l' => if r_from y <? r_from x then y :: insert_by_from x l' else x :: l
  end.

Fixpoint sort_by_from (l : list Region) : list Region :=
  match l with
  | [] => []
  | x :: l' => insert_by_from x (sort_by_from l')
  end.

(** The four published sets; [Decoration.set] of a sorted array keeps its
    order. *)
Record ScanResult := {
  line : list Region;
  token : list Region;
  group : list Region;
  widget : list Region
}.

Definition finalize (acc : Acc) : M ScanResult :=
  lineDecos <- line_regions (lineClasses acc) ;;
  _ <- cleanup_m ;;
  ret {| line := sort_by_from lineDecos;
         token := sort_by_from (tokenDecos acc);
         group := sort_by_from (groupDecos acc);
         widget := sort_by_from (widgetDecos acc) |}.

(** [getDeco]: [queries] is [Object.values(config.queries)]. *)
Definition getDeco (rx : RegExpCursor) (node_props : NodeProps) (d : doc)
    (visibleRanges : list (nat * nat)) (queries : list SearchQuery) : M ScanResult :=
  acc <- scan_parts rx node_props d visibleRanges queries empty_acc ;;
  finalize acc.

(** Auxiliary views of the scan used to state its properties. *)

(** The (rule, match) pairs of one visible range, in scan order; a rule
    whose cursor cannot be built contributes none. *)
Fixpoint query_pairs (rx : RegExpCursor) (d : doc) (part : nat * nat)
    (queries : list SearchQuery) : list (SearchQuery * CursorMatch) :=
  match queries with
  | [] => []
  | query :: queries' =>
      match make_cursor rx d query part with
      | None => query_pairs rx d part queries'
      | Some ms => map (fun m => (query, m)) ms ++ query_pairs rx d part queries'
      end
  end.

Definition scan_pairs (rx : RegExpCursor) (d : doc) (parts : list (nat * nat))
    (queries : list SearchQuery) : list (SearchQuery * CursorMatch) :=
  flat_map (fun part => query_pairs rx d part queries) parts.

Fixpoint run_pairs (node_props : NodeProps) (d : doc)
    (l : list (SearchQuery * CursorMatch)) (acc : Acc) : M Acc :=
  match l with
  | [] => ret acc
  | (query, m) :: l' =>
      acc' <- process_match node_props d query m acc ;;
      run_pairs node_props d l' acc'
  end.

(** The exclusion test of a match, at its line start plus one. *)
Definition match_excluded (node_props : NodeProps) (d : doc) (m : CursorMatch) : bool :=
  excluded_section node_props (line_start d (cm_from m) + 1).

Definition sorted_by_from (l : list Region) : Prop :=
  Sorted (fun a b => r_from a <= r_from b) l.

(** A computation that only adds entries at the end of the cache. *)
Definition Appends {A} (m : M A) : Prop :=
  forall c, exists l, snd (m c) = app c l.

(** Modelled from the spec: the repository's [RegExpCursor]
    ([src/highlighters/regexp-cursor.ts], not among the sources) for the
    pattern [^] only.  As the spec says, the cursor is a lazy sequence of
    the match spans inside the range; for [^] these are the (empty) matches
    at each line start, and the pattern has no named groups. *)
Definition caret_regexp_cursor : RegExpCursor :=
  fun _ d from to =>
    Some (map (fun p => {| cm_from := p; cm_to := p; cm_groups := None |})
              (filter (fun p => line_start d p =? p) (seq from (S (to - from))))).

End Static.

(* ------------------------------------------------------------------ *)
(** ** The update scheduler of the selection highlighter *)

Module Scheduler.
Local Open Scope Z_scope.

(** [updateDebouncer]: the adaptive delay from [highlightDelay], the
    document length and [visibleRanges]. *)
Definition visible_range_size (visibleRanges : list (nat * nat)) : Z :=
  fold_left (fun sum r => sum + (Z.of_nat (snd r) - Z.of_nat (fst r))) visibleRanges 0.

Definition adaptive_delay (baseDelay : Z) (docSize : Z)
    (visibleRanges : list (nat * nat)) : Z :=
  let visibleRangeSize := visible_range_size visibleRanges in
  let adaptiveDelay := baseDelay in
  let adaptiveDelay := if 50000 <? docSize then Z.max baseDelay 300 else adaptiveDelay in
  let adaptiveDelay := if 100000 <? docSize then Z.max baseDelay 500 else adaptiveDelay in
  if 10000 <? visibleRangeSize then adaptiveDelay + 100 else adaptiveDelay.

(** The flags of a [ViewUpdate] read by [update]; [typedInput] is
    [update.transactions.some(tr => tr.isUserEvent('input.type'))]. *)
Record ViewUpdate := {
  selectionSet : bool;
  docChanged : bool;
  viewportChanged : bool;
  typedInput : bool
}.

(** [update]: the delay of the recomputation it schedules ([None] when the
    update triggers nothing). *)
Definition effective_delay (highlightDelay : Z) (u : ViewUpdate) : option Z :=
  if selectionSet u || docChanged u || viewportChanged u then
    let isTyping := docChanged u && typedInput u in
    let isScrolling := viewportChanged u && negb (docChanged u) && negb (selectionSet u) in
    let effectiveDelay := highlightDelay in
    let effectiveDelay := if isScrolling then Z.min highlightDelay 100 else effectiveDelay in
    let effectiveDelay := if isTyping then Z.max highlightDelay 200 else effectiveDelay in
    Some effectiveDelay
  else None.

End Scheduler.

(* ------------------------------------------------------------------ *)
(** ** The selection highlighter's configuration and delay state *)

Module Config.
Import Text Selection.

(** [defaultHighlightOptions]; its [ignoredWords] is the list imported
    from the settings, a parameter here. *)
Definition defaultHighlightOptions (defaultIgnored : list ascii) : SelectionHighlightOptions :=
  {| highlightWordAroundCursor := true; highlightSelectedText := true;
     minSelectionLength := 3; maxMatches := 100;
     ignoredWords := defaultIgnored; highlightDelay := 0 |}.

(** One field of [combineConfig] ([@codemirror/state]) that has a
    [combine] function: [current === value] keeps the current value,
    otherwise it becomes [combine[key](current, value)]. *)
Definition merge_with {A} (eqb : A -> A -> bool) (f : A -> A -> A) (current value : A) : A :=
  if eqb current value then current else f current value.

(** [(a, b) => a || b] on strings: the empty string is falsy. *)
Definition str_or (a b : list ascii) : list ascii :=
  match a with [] => b | _ => a end.

(** The merge of one more configuration into [combineConfig]'s result.
    [highlightSelectedText] has no [combine] function, so two different
    values throw. *)
Definition merge_options (current value : SelectionHighlightOptions)
    : string + SelectionHighlightOptions :=
  if Bool.eqb (highlightSelectedText current) (highlightSelectedText value) then
    inr {| highlightWordAroundCursor :=
             merge_with Bool.eqb orb (highlightWordAroundCursor current)
               (highlightWordAroundCursor value);
           highlightSelectedText := highlightSelectedText current;
           minSelectionLength :=
             merge_with Z.eqb Z.min (minSelectionLength current) (minSelectionLength value);
           maxMatches := merge_with Z.eqb Z.min (maxMatches current) (maxMatches value);
           ignoredWords := merge_with leqb str_or (ignoredWords current) (ignoredWords value);
           highlightDelay :=
             merge_with Z.eqb Z.min (highlightDelay current) (highlightDelay value) |}
  else inl "Config merge conflict for field highlightSelectedText"%string.

Fixpoint combine_from (current : SelectionHighlightOptions)
    (options : list SelectionHighlightOptions) : string + SelectionHighlightOptions :=
  match options with
  | [] => inr current
  | o :: os =>
      match merge_options current o with
      | inl e => inl e
      | inr r => combine_from r os
      end
  end.

(** [highlightConfig]'s [combine]: [combineConfig(options,
    defaultHighlightOptions, {...})].  Every configuration sets every field
    (a [SelectionHighlightOptions] is a complete object), so the first one
    gives every field its start value and the defaults only apply when
    there is no configuration. *)
Definition combine (defaultIgnored : list ascii) (options : list SelectionHighlightOptions)
    : string + SelectionHighlightOptions :=
  match options with
  | [] => inr (defaultHighlightOptions defaultIgnored)
  | o :: os => combine_from o os
  end.

(** The first non-empty [ignoredWords] of a list (the empty list when
    there is none). *)
Definition first_nonempty (ws : list (list ascii)) : list ascii :=
  match filter (fun w => negb (leqb w [])) ws with
  | w :: _ => w
  | [] => []
  end.

End Config.

(* ------------------------------------------------------------------ *)
(** ** The delay stored by the selection highlighter *)

Module DelayState.
Import Scheduler.
Local Open Scope Z_scope.

(** The plugin's [highlightDelay] field.  The constructor calls
    [updateDebouncer], which stores the adaptive delay; every [getDeco]
    starts with [if (this.highlightDelay != conf.highlightDelay)
    this.updateDebouncer(view)]. *)
Definition construct_delay (base docSize : Z) (vis : list (nat * nat)) : Z :=
  adaptive_delay base docSize vis.

Definition refresh_delay (stored base docSize : Z) (vis : list (nat * nat)) : Z :=
  if negb (stored =? base) then adaptive_delay base docSize vis else stored.

(** The stored delay after [getDeco] has run on each view
    [(docSize, visibleRanges)] in turn, the configuration being unchanged. *)
Fixpoint run_refresh (stored base : Z) (views : list (Z * list (nat * nat))) : Z :=
  match views with
  | [] => stored
  | (s, v) :: views' => run_refresh (refresh_delay stored base s v) base views'
  end.

End DelayState.

(* ------------------------------------------------------------------ *)
(** ** The static highlighter's theme ([buildStyles]) *)

Module Styles.
Import Static.
Local Open Scope string_scope.

(** The [StyleSpec] [{ backgroundColor: query.color }]. *)
Record StyleSpec := { backgroundColor : string }.

(** A plain object [{ [selector]: StyleSpec }] in key order; its keys all
    start with a dot, so none is an array index and the order is the
    insertion order. *)
Definition Styles := list (string * StyleSpec).

(** [styles[k] = v]: an existing key keeps its place and takes the new
    value, a new key is added last. *)
Fixpoint obj_set (k : string) (v : StyleSpec) (o : Styles) : Styles :=
  match o with
  | [] => [(k, v)]
  | (k', v') :: o' => if String.eqb k k' then (k', v) :: o' else (k', v') :: obj_set k v o'
  end.

Fixpoint obj_get (k : string) (o : Styles) : option StyleSpec :=
  match o with
  | [] => None
  | (k', v) :: o' => if String.eqb k k' then Some v else obj_get k o'
  end.

(** The loop [for (let query of queries)]: [if (!query.color) continue],
    where the empty string is falsy too. *)
Fixpoint build_styles (queries : list SearchQuery) (styles : Styles) : Styles :=
  match queries with
  | [] => styles
  | query :: queries' =>
      let className := "." ++ q_class query in
      match q_color query with
      | None => build_styles queries' styles
      | Some color =>
          if String.eqb color "" then build_styles queries' styles
          else build_styles queries' (obj_set className {| backgroundColor := color |} styles)
      end
  end.

(** [buildStyles]: the object handed to [EditorView.theme]; [queries] is
    [Object.values(plugin.settings.staticHighlighter.queries)]. *)
Definition buildStyles (queries : list SearchQuery) : Styles := build_styles queries [].

(** The colour the theme should give the class [cls]: that of the last
    rule of this class with a non-empty colour. *)
Fixpoint last_color (cls : string) (queries : list SearchQuery) (acc : option string)
    : option string :=
  match queries with
  | [] => acc
  | q :: qs =>
      match q_color q with
      | Some color =>
          if String.eqb (q_class q) cls && negb (String.eqb color "")
          then last_color cls qs (Some color) else last_color cls qs acc
      | None => last_color cls qs acc
      end
  end.

End Styles.

(* ------------------------------------------------------------------ *)
(** ** Views of the selection highlighter used to state its properties *)

Module SelectionViews.

(** Order of what the cursors find: [a] ends before [b] starts. *)
Definition before (a b : nat * nat) : Prop := snd a <= fst b.

End SelectionViews.

(* ------------------------------------------------------------------ *)
(** ** Views of the static scan used to state its properties *)

Module StaticViews.
Import Text Static.

(** The decoration pool read as a [Map]: no key twice, and every entry is
    the decoration [getDecoration] built for its key. *)
Definition pool_wf (c : Cache) : Prop :=
  forall k dd, In (k, dd) c ->
  exists t cls attrs, k = cache_key t cls attrs /\ dd = make_decoration t cls attrs.

Definition pool_ok (c : Cache) : Prop := NoDup (map fst c) /\ pool_wf c.

Definition deco_type (dd : Deco) : DecoType :=
  match dd with DMark _ _ => TMark | DLine _ => TLine | DWidget _ => TWidget end.

(** A computation that keeps a property of the pool, whatever its
    outcome. *)
Definition Preserves {A} (P : Cache -> Prop) (m : M A) : Prop :=
  forall c, P c -> P (snd (m c)).

(** The outcome is a value, not a thrown error. *)
Definition returns {A} (r : (string + A) * Cache) : bool :=
  match fst r with inr _ => true | inl _ => false end.

(** A rule whose matches are marked as tokens: [!query.mark ||
    query.mark?.contains("match")]. *)
Definition token_marked (q : SearchQuery) : bool :=
  negb (match q_mark q with Some _ => true | None => false end) || contains (q_mark q) MMatch.

(** A (rule, match) pair whose mark decoration would be empty. *)
Definition empty_token (node_props : NodeProps) (d : doc) (qm : SearchQuery * CursorMatch) : bool :=
  negb (match_excluded node_props d (snd qm)) && token_marked (fst qm)
  && (cm_to (snd qm) <=? cm_from (snd qm)).

(** The regions a group list yields when every group's decoration is a
    mark: one per group with indices and a non-empty span, in order. *)
Definition group_regions (linePos : nat) (gs : list (string * option (nat * nat)))
    : list (nat * nat) :=
  flat_map (fun g => match snd g with
                     | Some (gf, gt) => if gf <? gt then [(linePos + gf, linePos + gt)] else []
                     | None => []
                     end) gs.

(** From a pool satisfying [P]: [m] returns a value satisfying [Q] and
    leaves a pool satisfying [P] ([RunsQ]); [m] throws and leaves a pool
    satisfying [P] ([Fails]); whatever [m] returns satisfies [Q] ([Post]). *)
Definition RunsQ {A} (P : Cache -> Prop) (m : M A) (Q : A -> Prop) : Prop :=
  forall c, P c -> exists a c', m c = (inr a, c') /\ Q a /\ P c'.

Definition Fails {A} (P : Cache -> Prop) (m : M A) : Prop :=
  forall c, P c -> exists e c', m c = (inl e, c') /\ P c'.

Definition Post {A} (m : M A) (Q : A -> Prop) : Prop :=
  forall c, match fst (m c) with inr a => Q a | inl _ => True end.

(** The keys of [lineClasses] as the code leaves them: increasing, and
    each one a line start. *)
Definition line_keys_ok (d : doc) (lc : list (nat * list string)) : Prop :=
  Sorted (fun x y => fst x < fst y) lc /\ Forall (fun kv => line_start d (fst kv) = fst kv) lc.


(** A literal rule: [{class: cls, query: w}], no [regex], no [mark]. *)
Definition word_rule (cls : string) (w : string) : SearchQuery :=
  {| q_class := cls; q_color := None; q_regex := false;
     q_query := list_ascii_of_string w; q_mark := None |}.

(** The rule [{class: "hl", regex: true, query: "^"}] with no [mark]
    (so its matches are marked as tokens). *)
Definition caret_rule : SearchQuery :=
  {| q_class := "hl"%string; q_color := None; q_regex := true;
     q_query := list_ascii_of_string "^"; q_mark := None |}.

End StaticViews.

(* ------------------------------------------------------------------ *)
(** ** Concrete inputs used by the examples below *)

Module Samples.
Import Text Selection.

Definition text (s : string) : doc := list_ascii_of_string s.

(** The plugin's defaults apart from [minSelectionLength] and
    [maxMatches]. *)
Definition options (minLen maxM : Z) : SelectionHighlightOptions :=
  {| highlightWordAroundCursor := true; highlightSelectedText := true;
     minSelectionLength := minLen; maxMatches := maxM;
     ignoredWords := text "the,and"; highlightDelay := 0 |}.

Definition single (a h : nat) : EditorSelection :=
  {| ranges := [{| anchor := a; head := h |}]; mainIndex := 0 |}.

End Samples.

(* ================================================================== *)
(** * Properties *)

(* ------------------------------------------------------------------ *)
(** ** Text: slices, the search cursor and word boundaries *)

Module TextFacts.
Import Text.

Lemma skipn_nth (d : doc) f c :
  nth_error d f = Some c -> skipn f d = c :: skipn (S f) d.
Proof.
  revert f; induction d as [|x d IH]; intros [|f] H; simpl in *;
    try discriminate.
  - now inversion H.
  - now apply IH.
Qed.

Lemma slice_cons (d : doc) f t c :
  nth_error d f = Some c -> f < t -> slice d f t = c :: slice d (S f) t.
Proof.
  intros H Hlt. unfold slice. rewrite (skipn_nth d f c H).
  replace (t - f) with (S (t - S f)) by lia. reflexivity.
Qed.

Lemma slice_nil (d : doc) f t : t <= f -> slice d f t = [].
Proof. intros H. unfold slice. now replace (t - f) with 0 by lia. Qed.

Lemma length_slice (d : doc) f t :
  length (slice d f t) = Nat.min (t - f) (length d - f).
Proof. unfold slice. now rewrite length_firstn, length_skipn. Qed.

Lemma nth_error_some (d : doc) i : i < length d -> exists c, nth_error d i = Some c.
Proof.
  intros H. destruct (nth_error d i) eqn:E; eauto.
  apply nth_error_None in E. lia.
Qed.

Lemma is_word_at_lt (d : doc) i : is_word_at d i = true -> i < length d.
Proof.
  unfold is_word_at. destruct (nth_error d i) eqn:E; [|discriminate].
  intros _. destruct (Nat.lt_ge_cases i (length d)) as [H|H]; auto.
  apply nth_error_None in H. congruence.
Qed.

Lemma leqb_true a b : leqb a b = true <-> a = b.
Proof.
  unfold leqb. destruct (list_eq_dec ascii_dec a b); split; congruence.
Qed.

(** What the cursor returns is an occurrence of the normalised query inside
    the range. *)
Lemma search_from_sound norm (d : doc) q fuel i to f t :
  In (f, t) (search_from norm d q fuel i to) ->
  t = f + length q /\ i <= f /\ t <= to /\ map norm (slice d f t) = map norm q.
Proof.
  revert i; induction fuel as [|fuel IH]; intros i H; simpl in H; [contradiction|].
  destruct (i + length q <=? to) eqn:E1; [|contradiction].
  apply Nat.leb_le in E1.
  destruct (leqb _ _) eqn:E2.
  - apply leqb_true in E2. destruct H as [H|H].
    + inversion H; subst. repeat split; auto; lia.
    + destruct (IH _ H) as (H1 & H2 & H3 & H4). repeat split; auto; lia.
  - destruct (IH _ H) as (H1 & H2 & H3 & H4). repeat split; auto; lia.
Qed.

(** Every occurrence inside the range is found or overlaps an occurrence
    found before it. *)
Lemma search_from_complete norm (d : doc) q fuel i to j :
  q <> [] -> i <= j -> j + length q <= to -> j - i < fuel ->
  map norm (slice d j (j + length q)) = map norm q ->
  exists f t, In (f, t) (search_from norm d q fuel i to) /\ f <= j < t.
Proof.
  intros Hq. assert (Hlen : 0 < length q) by (destruct q; simpl; [congruence | lia]).
  revert i; induction fuel as [|fuel IH]; intros i Hij Hjt Hfuel Hm; [lia|].
  simpl. replace (i + length q <=? to) with true by (symmetry; apply Nat.leb_le; lia).
  destruct (leqb _ _) eqn:E2.
  - destruct (Nat.lt_ge_cases j (i + length q)) as [Hj|Hj].
    + exists i, (i + length q). split; [now left | lia].
    + destruct (IH (i + length q)) as (f & t & Hin & Hr); try lia; auto.
      exists f, t. split; [now right | exact Hr].
  - destruct (Nat.eq_dec i j) as [->|Hne].
    + apply not_true_iff_false in E2. exfalso. apply E2, leqb_true, Hm.
    + destruct (IH (S i)) as (f & t & Hin & Hr); try lia; auto.
      exists f, t. split; [exact Hin | exact Hr].
Qed.

Lemma search_cursor_sound norm (d : doc) q from to f t :
  In (f, t) (search_cursor norm d q from to) ->
  t = f + length q /\ from <= f /\ t <= to /\ map norm (slice d f t) = map norm q.
Proof.
  unfold search_cursor. destruct q as [|c q']; [contradiction|].
  apply search_from_sound.
Qed.

Lemma search_cursor_complete norm (d : doc) q from to j :
  q <> [] -> from <= j -> j + length q <= to ->
  map norm (slice d j (j + length q)) = map norm q ->
  exists f t, In (f, t) (search_cursor norm d q from to) /\ f <= j < t.
Proof.
  intros Hq Hj1 Hj2 Hm. unfold search_cursor. destruct q as [|c q']; [congruence|].
  apply search_from_complete; auto; lia.
Qed.

(** Lower-casing keeps the category of a character. *)
Lemma is_word_char_lower c : is_word_char (lower_ascii c) = is_word_char c.
Proof. destruct c as [[] [] [] [] [] [] [] []]; reflexivity. Qed.

Lemma is_word_char_not_space c : is_word_char c = true -> is_space c = false.
Proof. destruct c as [[] [] [] [] [] [] [] []]; cbv; congruence. Qed.

Lemma forallb_word_lower l :
  forallb is_word_char (map lower_ascii l) = forallb is_word_char l.
Proof.
  induction l as [|c l IH]; simpl; [reflexivity|].
  now rewrite is_word_char_lower, IH.
Qed.

(** The categorizer on a one-character slice. *)
Lemma is_word_slice_at (d : doc) i : is_word_slice d i (S i) = is_word_at d i.
Proof.
  unfold is_word_slice, is_word_at. destruct (nth_error d i) as [c|] eqn:E.
  - rewrite (slice_cons d i (S i) c E) by lia. rewrite slice_nil by lia.
    unfold categorize. simpl. destruct (is_word_char c) eqn:W.
    + now rewrite (is_word_char_not_space c W).
    + destruct (is_space c); reflexivity.
  - assert (Hl : length (slice d i (S i)) = 0).
    { rewrite length_slice. apply nth_error_None in E. lia. }
    destruct (slice d i (S i)); [reflexivity | discriminate].
Qed.

Lemma forallb_slice (d : doc) f t :
  t <= length d ->
  (forallb is_word_char (slice d f t) = true <->
   forall i, f <= i < t -> is_word_at d i = true).
Proof.
  intros Ht. remember (t - f) as n eqn:Hn. revert f Hn.
  induction n as [|n IH]; intros f Hn.
  - rewrite slice_nil by lia. split; [intros _ i Hi; lia | reflexivity].
  - destruct (nth_error_some d f) as [c E]; [lia|].
    rewrite (slice_cons d f t c E) by lia. simpl. rewrite andb_true_iff.
    rewrite (IH (S f)) by lia. split.
    + intros [Hc Hr] i Hi. destruct (Nat.eq_dec i f) as [->|Hne].
      * unfold is_word_at. now rewrite E.
      * apply Hr. lia.
    + intros H. split.
      * specialize (H f). unfold is_word_at in H. rewrite E in H. apply H. lia.
      * intros i Hi. apply H. lia.
Qed.

Lemma word_left_spec (d : doc) p :
  word_left d p <= p /\
  (forall i, word_left d p <= i < p -> is_word_at d i = true) /\
  (word_left d p = 0 \/ is_word_at d (word_left d p - 1) = false).
Proof.
  induction p as [|p IH]; simpl.
  - split; [lia | split; [intros; lia | now left]].
  - destruct (is_word_at d p) eqn:E.
    + destruct IH as (H1 & H2 & H3). split; [lia | split; [|exact H3]].
      intros i Hi. destruct (Nat.eq_dec i p) as [->|Hne]; [exact E|]. apply H2. lia.
    + split; [lia | split; [intros; lia|]]. right.
      now replace (S p - 1) with p by lia.
Qed.

Lemma word_right_fuel_spec (d : doc) fuel p :
  length d <= p + fuel ->
  p <= word_right_fuel d fuel p /\
  (forall i, p <= i < word_right_fuel d fuel p -> is_word_at d i = true) /\
  is_word_at d (word_right_fuel d fuel p) = false.
Proof.
  revert p; induction fuel as [|fuel IH]; intros p Hl; simpl.
  - split; [lia | split; [intros; lia|]].
    assert (E : nth_error d p = None) by (apply nth_error_None; lia).
    unfold is_word_at. now rewrite E.
  - destruct (is_word_at d p) eqn:E.
    + destruct (IH (S p)) as (H1 & H2 & H3); [lia|].
      split; [lia | split; [|exact H3]].
      intros i Hi. destruct (Nat.eq_dec i p) as [->|Hne]; [exact E|]. apply H2. lia.
    + split; [lia | split; [intros; lia | exact E]].
Qed.

(** [wordAt] returns a maximal non-empty run of word characters around the
    position. *)
Lemma wordAt_spec (d : doc) h a b :
  wordAt d h = Some (a, b) ->
  a < b /\ a <= h <= b /\ b <= length d /\
  (forall i, a <= i < b -> is_word_at d i = true) /\
  (a = 0 \/ is_word_at d (a - 1) = false) /\
  is_word_at d b = false.
Proof.
  unfold wordAt. destruct (word_left d h =? word_right d h) eqn:E; [discriminate|].
  intros H. inversion H as [[Ha Hb]]. clear H.
  apply Nat.eqb_neq in E.
  destruct (word_left_spec d h) as (L1 & L2 & L3).
  destruct (word_right_fuel_spec d (length d - h) h) as (R1 & R2 & R3); [lia|].
  fold (word_right d h) in R1, R2, R3. rewrite Ha, Hb in *.
  assert (Hab : a < b) by lia.
  assert (Hall : forall i, a <= i < b -> is_word_at d i = true).
  { intros i Hi. destruct (Nat.lt_ge_cases i h); [apply L2 | apply R2]; lia. }
  split; [exact Hab|]. split; [lia|]. split.
  { assert (Hw := is_word_at_lt d (b - 1) (Hall (b - 1) ltac:(lia))). lia. }
  split; [exact Hall|]. split; [exact L3 | exact R3].
Qed.

(** Two maximal runs of word characters that overlap are the same run. *)
Lemma word_runs_overlap (d : doc) a b f t :
  (forall i, a <= i < b -> is_word_at d i = true) ->
  (a = 0 \/ is_word_at d (a - 1) = false) -> is_word_at d b = false ->
  (forall i, f <= i < t -> is_word_at d i = true) ->
  (f = 0 \/ is_word_at d (f - 1) = false) ->
  (t = length d \/ is_word_at d t = false) ->
  f < b -> a < t -> f = a /\ t = b.
Proof.
  intros Hab Ha Hb Hft Hf Ht H1 H2.
  destruct (Nat.lt_trichotomy f a) as [Hfa|[->|Haf]].
  - destruct Ha as [Ha|Ha]; [lia|].
    rewrite (Hft (a - 1)) in Ha by lia. discriminate.
  - split; [reflexivity|].
    destruct (Nat.lt_trichotomy t b) as [Htb|[Htb|Htb]]; [|exact Htb|].
    + assert (Hw := Hab t ltac:(lia)). destruct Ht as [Ht|Ht].
      * pose proof (is_word_at_lt d t Hw). lia.
      * congruence.
    + rewrite (Hft b) in Hb by lia. discriminate.
  - destruct Hf as [Hf|Hf]; [lia|].
    rewrite (Hab (f - 1)) in Hf by lia. discriminate.
Qed.

End TextFacts.

(* ------------------------------------------------------------------ *)
(** ** The selection highlighter *)

Module SelectionFacts.
Import Text TextFacts Selection SelectionViews.

Lemma push_opt_app deco o : push_opt deco o = deco ++ push_opt [] o.
Proof. destruct o; simpl; [reflexivity | now rewrite app_nil_r]. Qed.

Lemma emitted_nil sq (d : doc) ms :
  any_accepted sq d ms = false -> emitted sq d ms = [].
Proof.
  unfold any_accepted. induction ms as [|[f t] ms IH]; simpl; [reflexivity|].
  destruct (accept (sq_check sq) d f t); simpl; [discriminate | exact IH].
Qed.

(** The inner loop: it aborts exactly when an accepted occurrence was seen
    and the decorations it would push exceed [maxMatches]. *)
Lemma scan_part_spec conf sq (d : doc) ms deco :
  scan_part conf sq d ms deco =
  if any_accepted sq d ms
     && (maxMatches conf <? Z.of_nat (length (deco ++ emitted sq d ms)))%Z
  then None else Some (deco ++ emitted sq d ms).
Proof.
  revert deco. unfold any_accepted.
  induction ms as [|[f t] ms IH]; intros deco; simpl.
  - now rewrite app_nil_r.
  - destruct (accept (sq_check sq) d f t) eqn:A; simpl.
    + rewrite (push_opt_app deco).
      destruct (maxMatches conf <? Z.of_nat (length (deco ++ push_opt [] (classify sq d f t))))%Z
        eqn:C.
      * symmetry. replace (maxMatches conf <? _)%Z with true; [reflexivity|].
        symmetry. apply Z.ltb_lt in C. apply Z.ltb_lt.
        rewrite app_assoc, length_app. lia.
      * rewrite IH, app_assoc.
        destruct (existsb _ ms) eqn:E; [reflexivity|]. simpl.
        rewrite (emitted_nil sq d ms E), app_nil_r, C. reflexivity.
    + exact (IH deco).
Qed.

Lemma scan_part_app conf sq (d : doc) l1 l2 deco :
  scan_part conf sq d (l1 ++ l2) deco =
  match scan_part conf sq d l1 deco with
  | None => None
  | Some deco' => scan_part conf sq d l2 deco'
  end.
Proof.
  revert deco; induction l1 as [|[f t] l1 IH]; intros deco; simpl; [reflexivity|].
  destruct (accept (sq_check sq) d f t); [|apply IH].
  destruct (_ <? _)%Z; [reflexivity | apply IH].
Qed.

Lemma scan_parts_flat conf sq (d : doc) parts deco :
  scan_parts conf sq d parts deco = scan_part conf sq d (selection_matches sq d parts) deco.
Proof.
  unfold selection_matches. revert deco.
  induction parts as [|part parts IH]; intros deco; simpl; [reflexivity|].
  rewrite scan_part_app. destruct (scan_part _ _ _ _ _); [apply IH | reflexivity].
Qed.

Lemma threshold_pos sq : (1 <= threshold sq)%Z.
Proof. unfold threshold. destruct (rempty _); lia. Qed.

(** [getDeco] in closed form: all pushed decorations, or nothing when they
    exceed the cap or fall below the minimum. *)
Lemma getDeco_spec conf (d : doc) vis sel sq :
  selection_query conf d sel = Some sq ->
  getDeco conf d vis sel =
  let all := collected sq d vis in
  if (maxMatches conf <? Z.of_nat (length all))%Z
     || (Z.of_nat (length all) <? threshold sq)%Z
  then [] else all.
Proof.
  intros Hq. unfold getDeco. rewrite Hq, scan_parts_flat, scan_part_spec.
  simpl. fold (collected sq d vis). fold (threshold sq).
  destruct (any_accepted sq d (selection_matches sq d vis)) eqn:A; simpl.
  - destruct (maxMatches conf <? _)%Z; reflexivity.
  - unfold collected. rewrite (emitted_nil _ _ _ A). simpl.
    pose proof (threshold_pos sq).
    replace (0 <? threshold sq)%Z with true by (symmetry; apply Z.ltb_lt; lia).
    rewrite orb_true_r. reflexivity.
Qed.

Lemma in_emitted sq (d : doc) ms f t x :
  In (f, t) ms -> accept (sq_check sq) d f t = true -> classify sq d f t = Some x ->
  In x (emitted sq d ms).
Proof.
  induction ms as [|[f' t'] ms IH]; simpl; [contradiction|].
  intros [H|H] A C.
  - inversion H; subst. rewrite A, C. now left.
  - destruct (accept (sq_check sq) d f' t'); [apply in_or_app; right|]; auto.
Qed.

(** A caret range: every accepted occurrence is pushed. *)
Lemma classify_caret sq (d : doc) f t :
  sq_check sq = true -> rfrom (sq_range sq) = rto (sq_range sq) ->
  exists x, classify sq d f t = Some x.
Proof.
  intros Hc Hr. unfold classify. rewrite Hc, <- Hr. simpl.
  destruct ((f <=? rfrom (sq_range sq)) && (rfrom (sq_range sq) <=? t)) eqn:E; eauto.
  replace ((rfrom (sq_range sq) <=? f) || (t <=? rfrom (sq_range sq))) with true; eauto.
  symmetry. apply andb_false_iff in E. apply orb_true_iff.
  destruct E as [E|E]; apply Nat.leb_gt in E; [left | right]; apply Nat.leb_le; lia.
Qed.

Lemma emitted_caret_length sq (d : doc) ms :
  sq_check sq = true -> rfrom (sq_range sq) = rto (sq_range sq) ->
  length (emitted sq d ms) =
  length (filter (fun ft => accept true d (fst ft) (snd ft)) ms).
Proof.
  intros Hc Hr. induction ms as [|[f t] ms IH]; simpl; [reflexivity|].
  rewrite Hc. destruct (accept true d f t) eqn:A; [|exact IH].
  destruct (classify_caret sq d f t Hc Hr) as [x Hx]. rewrite Hx. simpl.
  now rewrite IH.
Qed.

Lemma rempty_eq r : rempty r = true -> rfrom r = rto r /\ rfrom r = head r.
Proof.
  unfold rempty, rfrom, rto. intros H. apply Nat.eqb_eq in H. lia.
Qed.

(** The two shapes of a query. *)
Lemma selection_query_cases conf (d : doc) sel sq :
  selection_query conf d sel = Some sq ->
  sq_range sq = main sel /\
  match sq_type sq with
  | MWord =>
      sq_check sq = true /\ rempty (sq_range sq) = true /\
      exists a b, wordAt d (head (sq_range sq)) = Some (a, b) /\ sq_text sq = slice d a b
  | MString =>
      sq_check sq = false /\ rempty (sq_range sq) = false /\ sq_text sq <> []
  end.
Proof.
  unfold selection_query. intros H.
  destruct (1 <? length (ranges sel)); [discriminate|].
  destruct (rempty (main sel)) eqn:E.
  - destruct (negb _); [discriminate|].
    destruct (wordAt d (head (main sel))) as [[a b]|] eqn:W; [|discriminate].
    destruct (_ || _); [discriminate|].
    inversion H; subst; simpl. repeat split; auto. exists a, b. split; auto.
  - destruct (negb _); [discriminate|].
    destruct (_ || _)%Z; [discriminate|].
    destruct (trim _) as [|c l] eqn:T; [discriminate|].
    inversion H; subst; simpl. repeat split; auto. discriminate.
Qed.

Lemma selection_query_word conf (d : doc) sel a b :
  length (ranges sel) <= 1 -> rempty (main sel) = true ->
  highlightWordAroundCursor conf = true ->
  wordAt d (head (main sel)) = Some (a, b) ->
  is_ignored (ignoredWords conf) (slice d a b) = false ->
  (minSelectionLength conf <= Z.of_nat (length (slice d a b)))%Z ->
  selection_query conf d sel =
  Some {| sq_text := slice d a b; sq_check := true; sq_type := MWord;
          sq_range := main sel |}.
Proof.
  intros H1 H2 H3 H4 H5 H6. unfold selection_query.
  replace (1 <? length (ranges sel)) with false by (symmetry; apply Nat.ltb_ge; lia).
  rewrite H2, H3. simpl. rewrite H4, H5.
  replace (Z.of_nat (length (slice d a b)) <? minSelectionLength conf)%Z with false
    by (symmetry; apply Z.ltb_ge; lia).
  reflexivity.
Qed.

Lemma accept_word (d : doc) f t :
  accept true d f t =
  ((f =? 0) || negb (is_word_at d (f - 1))) && ((t =? length d) || negb (is_word_at d t)).
Proof.
  unfold accept. simpl. rewrite Nat.add_1_r, is_word_slice_at.
  destruct f as [|f]; [reflexivity|].
  simpl (S f - 1). rewrite Nat.sub_0_r, is_word_slice_at. reflexivity.
Qed.


Lemma search_from_ss norm (d : doc) q fuel i to :
  StronglySorted before (search_from norm d q fuel i to).
Proof.
  revert i; induction fuel as [|fuel IH]; intros i; simpl; [constructor|].
  destruct (i + length q <=? to); [|constructor].
  destruct (leqb _ _); [|apply IH].
  constructor; [apply IH|]. apply Forall_forall. intros [f t] Hin.
  apply search_from_sound in Hin. unfold before; simpl. lia.
Qed.

Lemma search_cursor_ss norm (d : doc) q from to :
  StronglySorted before (search_cursor norm d q from to).
Proof. unfold search_cursor. destruct q; [constructor | apply search_from_ss]. Qed.

Lemma ss_in_order {A} (R : A -> A -> Prop) l x y :
  StronglySorted R l -> In x l -> In y l -> x = y \/ R x y \/ R y x.
Proof.
  induction l as [|z l IH]; intros H Hx Hy; [contradiction|].
  apply StronglySorted_inv in H as [Hl Hz]. rewrite Forall_forall in Hz.
  destruct Hx as [<-|Hx], Hy as [<-|Hy]; auto.
Qed.

Lemma ss_split {A} (R : A -> A -> Prop) l1 x l2 y l3 :
  StronglySorted R (l1 ++ x :: l2 ++ y :: l3) -> R x y.
Proof.
  induction l1 as [|z l1 IH]; simpl; intros H.
  - apply StronglySorted_inv in H as [_ Hx]. rewrite Forall_forall in Hx.
    apply Hx. apply in_or_app. right. now left.
  - apply StronglySorted_inv in H as [H _]. now apply IH.
Qed.

End SelectionFacts.

(* ------------------------------------------------------------------ *)
(** ** Claims on the selection highlighter *)

Module SelectionClaims.
Import Text TextFacts Selection SelectionFacts SelectionViews Samples.

Lemma in_selection_matches sq (d : doc) vis f t :
  In (f, t) (selection_matches sq d vis) ->
  exists part, In part vis /\ In (f, t) (part_matches sq d part).
Proof.
  unfold selection_matches. intros H. apply in_flat_map in H.
  destruct H as [part [H1 H2]]. eauto.
Qed.

(** C1 (amended): in word mode an accepted occurrence that contains the word
    at the caret is [cm-current-word], one disjoint from it is
    [cm-matched-word], and no accepted occurrence overlaps the word only
    partly (it is then the word itself).  In string mode an occurrence
    disjoint from the selection is [cm-matched-string] and every other one,
    including the selected text itself, is not emitted: [check] is null, so
    [cm-current-string] never appears. *)
Theorem classification_by_mode conf (d : doc) sel vis sq f t :
  selection_query conf d sel = Some sq ->
  In (f, t) (selection_matches sq d vis) ->
  accept (sq_check sq) d f t = true ->
  match sq_type sq with
  | MWord =>
      exists a b, wordAt d (head (sq_range sq)) = Some (a, b) /\
        (f <= a /\ b <= t ->
         option_map sd_class (classify sq d f t) = Some "cm-current-word"%string) /\
        (t <= a \/ b <= f ->
         option_map sd_class (classify sq d f t) = Some "cm-matched-word"%string) /\
        (f < b /\ a < t -> f = a /\ t = b)
  | MString =>
      (rto (sq_range sq) <= f \/ t <= rfrom (sq_range sq) ->
       option_map sd_class (classify sq d f t) = Some "cm-matched-string"%string) /\
      (f < rto (sq_range sq) /\ rfrom (sq_range sq) < t -> classify sq d f t = None)
  end.
Proof.
  intros Hq Hin Hacc.
  destruct (selection_query_cases conf d sel sq Hq) as [_ Hcase].
  destruct (in_selection_matches sq d vis f t Hin) as [part [_ Hpart]].
  unfold part_matches in Hpart.
  destruct (search_cursor_sound _ _ _ _ _ _ _ Hpart) as (Ht & _ & _ & Hm).
  destruct (sq_type sq) eqn:Ty.
  - destruct Hcase as (Hc & He & a & b & Hw & Hq').
    exists a, b. split; [exact Hw|].
    destruct (rempty_eq _ He) as [Hr1 Hr2].
    destruct (wordAt_spec d _ a b Hw) as (Hab & Hh & Hb & Hall & Ha & Hbr).
    assert (Hlq : length (sq_text sq) = b - a) by (rewrite Hq', length_slice; lia).
    assert (Hlen : length (slice d f t) = t - f).
    { rewrite <- (length_map lower_ascii (slice d f t)), Hm, length_map. lia. }
    assert (Htd : t <= length d) by (rewrite length_slice in Hlen; lia).
    assert (Hwords : forall i, f <= i < t -> is_word_at d i = true).
    { apply (forallb_slice d f t Htd).
      rewrite <- forallb_word_lower, Hm, forallb_word_lower, Hq'.
      apply (forallb_slice d a b Hb). exact Hall. }
    rewrite Hc, accept_word in Hacc.
    apply andb_true_iff in Hacc. destruct Hacc as [Hf Ht'].
    assert (Hf' : f = 0 \/ is_word_at d (f - 1) = false).
    { apply orb_true_iff in Hf. destruct Hf as [Hf|Hf];
        [left; now apply Nat.eqb_eq | right; now apply negb_true_iff]. }
    assert (Ht'' : t = length d \/ is_word_at d t = false).
    { apply orb_true_iff in Ht'. destruct Ht' as [Ht'|Ht'];
        [left; now apply Nat.eqb_eq | right; now apply negb_true_iff]. }
    unfold classify. rewrite Hc, Ty, <- Hr1, Hr2. simpl.
    split; [|split].
    + intros [H1 H2].
      replace (f <=? head (sq_range sq)) with true by (symmetry; apply Nat.leb_le; lia).
      replace (head (sq_range sq) <=? t) with true by (symmetry; apply Nat.leb_le; lia).
      reflexivity.
    + intros H.
      assert (Hnc : (f <=? head (sq_range sq)) && (head (sq_range sq) <=? t) = false).
      { apply andb_false_iff. destruct H as [H|H].
        - right. apply Nat.leb_gt. destruct (Nat.lt_ge_cases t (head (sq_range sq))); auto.
          exfalso. assert (t = a) by lia. subst t.
          destruct Ht'' as [Ht''|Ht'']; [lia|]. rewrite Hall in Ht'' by lia. discriminate.
        - left. apply Nat.leb_gt. destruct (Nat.lt_ge_cases (head (sq_range sq)) f); auto.
          exfalso. assert (f = b) by lia. subst f.
          destruct Hf' as [Hf'|Hf']; [lia|]. rewrite Hall in Hf' by lia. discriminate. }
      rewrite Hnc.
      replace ((head (sq_range sq) <=? f) || (t <=? head (sq_range sq))) with true.
      * reflexivity.
      * symmetry. apply orb_true_iff. destruct H as [H|H];
          [right | left]; apply Nat.leb_le; lia.
    + intros [H1 H2].
      exact (word_runs_overlap d a b f t Hall Ha Hbr Hwords Hf' Ht'' H1 H2).
  - destruct Hcase as (Hc & _ & _). unfold classify. rewrite Hc, Ty. simpl.
    split.
    + intros H.
      replace ((rto (sq_range sq) <=? f) || (t <=? rfrom (sq_range sq))) with true.
      * reflexivity.
      * symmetry. apply orb_true_iff. destruct H as [H|H];
          [left | right]; apply Nat.leb_le; lia.
    + intros [H1 H2].
      replace ((rto (sq_range sq) <=? f) || (t <=? rfrom (sq_range sq))) with false.
      * reflexivity.
      * symmetry. apply orb_false_iff. split; apply Nat.leb_gt; lia.
Qed.


Lemma classification_by_mode_witness :
  let d := text "cat cat dog cat" in
  let sq := {| sq_text := text "cat"; sq_check := true; sq_type := MWord;
               sq_range := {| anchor := 1; head := 1 |} |} in
  selection_query (options 3 100) d (single 1 1) = Some sq /\
  In (12, 15) (selection_matches sq d [(0, 15)]) /\
  option_map sd_class (classify sq d 12 15) = Some "cm-matched-word"%string.
Proof.
  intros d sq.
  assert (Hq : selection_query (options 3 100) d (single 1 1) = Some sq)
    by (vm_compute; reflexivity).
  assert (Hin : In (12, 15) (selection_matches sq d [(0, 15)]))
    by (vm_compute; auto 6).
  split; [exact Hq|]. split; [exact Hin|].
  pose proof (classification_by_mode (options 3 100) d (single 1 1) [(0, 15)] sq 12 15
                Hq Hin ltac:(vm_compute; reflexivity)) as H.
  simpl in H. destruct H as (a & b & Hw & _ & Hm & _).
  vm_compute in Hw. inversion Hw; subst. apply Hm. right. lia.
Defined.

(** C1 (counterexample): in string mode the selected text "cat" of
    "cat cat" is found and accepted, and its occurrence [[0,3)] contains the
    selection [[0,3)], yet it is not emitted: only the other occurrence is,
    as [cm-matched-string]. *)
Lemma string_mode_selection_not_current :
  let d := text "cat cat" in
  let sq := {| sq_text := text "cat"; sq_check := false; sq_type := MString;
               sq_range := {| anchor := 0; head := 3 |} |} in
  selection_query (options 3 100) d (single 0 3) = Some sq /\
  In (0, 3) (selection_matches sq d [(0, 7)]) /\
  accept false d 0 3 = true /\
  classify sq d 0 3 = None /\
  getDeco (options 3 100) d [(0, 7)] (single 0 3) =
    [{| sd_from := 4; sd_to := 7; sd_class := "cm-matched-string";
        sd_contents := text "cat" |}].
Proof.
  vm_compute. repeat split; auto.
Qed.

(** C3: when the decorations the scan pushes outnumber [maxMatches] the
    result is empty (not a truncated prefix), and raising [maxMatches]
    never empties a non-empty result (it leaves it unchanged). *)
Theorem cap_abort_monotone conf (d : doc) vis sel :
  (forall sq, selection_query conf d sel = Some sq ->
     (maxMatches conf < Z.of_nat (length (collected sq d vis)))%Z ->
     getDeco conf d vis sel = []) /\
  (forall m', (maxMatches conf <= m')%Z ->
     getDeco conf d vis sel <> [] ->
     getDeco (with_maxMatches conf m') d vis sel = getDeco conf d vis sel).
Proof.
  split.
  - intros sq Hq Hc. rewrite (getDeco_spec conf d vis sel sq Hq). simpl.
    apply Z.ltb_lt in Hc. now rewrite Hc.
  - intros m' Hm Hne.
    destruct (selection_query conf d sel) as [sq|] eqn:Hq.
    + assert (Hq' : selection_query (with_maxMatches conf m') d sel = Some sq)
        by (rewrite <- Hq; reflexivity).
      rewrite (getDeco_spec _ d vis sel sq Hq'), (getDeco_spec conf d vis sel sq Hq).
      rewrite (getDeco_spec conf d vis sel sq Hq) in Hne. simpl in *.
      destruct (maxMatches conf <? Z.of_nat (length (collected sq d vis)))%Z eqn:C;
        [now contradiction Hne|].
      apply Z.ltb_ge in C.
      replace (m' <? Z.of_nat (length (collected sq d vis)))%Z with false
        by (symmetry; apply Z.ltb_ge; lia).
      reflexivity.
    + exfalso. apply Hne. unfold getDeco. now rewrite Hq.
Qed.

(** C4 (amended): the result is empty when fewer decorations than the
    minimum (2 for a caret, 1 for a selection) are pushed; and for a single
    caret in a word W of length at least [minSelectionLength] that is not
    ignored (with [highlightWordAroundCursor] on), when the number n of
    whole-word, case-insensitive occurrences of W that the cursors find in
    the visible ranges is at most [maxMatches], the result has n regions
    when n >= 2 and is empty when n <= 1; when n exceeds [maxMatches] the
    result is empty, whatever n. *)
Theorem threshold_rule conf (d : doc) vis sel :
  (forall sq, selection_query conf d sel = Some sq ->
     (Z.of_nat (length (collected sq d vis)) < threshold sq)%Z ->
     getDeco conf d vis sel = []) /\
  (forall a b,
     length (ranges sel) <= 1 -> rempty (main sel) = true ->
     highlightWordAroundCursor conf = true ->
     wordAt d (head (main sel)) = Some (a, b) ->
     is_ignored (ignoredWords conf) (slice d a b) = false ->
     (minSelectionLength conf <= Z.of_nat (length (slice d a b)))%Z ->
     let n := length (word_occurrences d (slice d a b) vis) in
     ((maxMatches conf < Z.of_nat n)%Z -> getDeco conf d vis sel = []) /\
     ((Z.of_nat n <= maxMatches conf)%Z -> 2 <= n -> length (getDeco conf d vis sel) = n) /\
     ((Z.of_nat n <= maxMatches conf)%Z -> n <= 1 -> getDeco conf d vis sel = [])).
Proof.
  split.
  - intros sq Hq Hc. rewrite (getDeco_spec conf d vis sel sq Hq). simpl.
    apply Z.ltb_lt in Hc. rewrite Hc, orb_true_r. reflexivity.
  - intros a b H1 H2 H3 H4 H5 H6 n.
    pose proof (selection_query_word conf d sel a b H1 H2 H3 H4 H5 H6) as Hq.
    rewrite (getDeco_spec conf d vis sel _ Hq). simpl.
    destruct (rempty_eq _ H2) as [Hr _].
    assert (Hl : length (collected {| sq_text := slice d a b; sq_check := true;
                                      sq_type := MWord; sq_range := main sel |} d vis) = n).
    { unfold collected. rewrite emitted_caret_length by auto. reflexivity. }
    rewrite Hl. unfold threshold. simpl. rewrite H2. split.
    + intros Hn. replace (maxMatches conf <? Z.of_nat n)%Z with true
        by (symmetry; apply Z.ltb_lt; lia). reflexivity.
    + split; intros Hn;
        replace (maxMatches conf <? Z.of_nat n)%Z with false by (symmetry; apply Z.ltb_ge; lia);
        simpl.
      * intros Hn2. replace (Z.of_nat n <? 2)%Z with false by (symmetry; apply Z.ltb_ge; lia).
        exact Hl.
      * intros Hn1. replace (Z.of_nat n <? 2)%Z with true by (symmetry; apply Z.ltb_lt; lia).
        reflexivity.
Qed.

(** C4 (counterexample): with [maxMatches = 1], the caret in the first
    "cat" of "cat cat" has two whole-word occurrences in view, yet the
    result is empty. *)
Lemma two_occurrences_over_cap :
  wordAt (text "cat cat") 1 = Some (0, 3) /\
  length (word_occurrences (text "cat cat") (text "cat") [(0, 7)]) = 2 /\
  getDeco (options 3 1) (text "cat cat") [(0, 7)] (single 1 1) = [].
Proof. vm_compute. repeat split. Qed.

(** C10: in word mode no character is read before offset 0 or after the end
    of the document, and an occurrence at either end whose other side is a
    word boundary is pushed. *)
Theorem document_ends_are_boundaries conf (d : doc) vis sel sq :
  selection_query conf d sel = Some sq -> sq_type sq = MWord ->
  sq_check sq = true /\
  (forall t, accept true d 0 t = ((t =? length d) || negb (is_word_slice d t (t + 1)))) /\
  (forall f, accept true d f (length d) = ((f =? 0) || negb (is_word_slice d (f - 1) f))) /\
  (forall t, In (0, t) (selection_matches sq d vis) ->
     (t = length d \/ is_word_at d t = false) ->
     exists x, classify sq d 0 t = Some x /\ In x (collected sq d vis)) /\
  (forall f, In (f, length d) (selection_matches sq d vis) ->
     (f = 0 \/ is_word_at d (f - 1) = false) ->
     exists x, classify sq d f (length d) = Some x /\ In x (collected sq d vis)).
Proof.
  intros Hq Ty.
  destruct (selection_query_cases conf d sel sq Hq) as [_ Hcase]. rewrite Ty in Hcase.
  destruct Hcase as (Hc & He & _).
  destruct (rempty_eq _ He) as [Hr _].
  split; [exact Hc|]. split; [|split; [|split]].
  - intros t. unfold accept. simpl. reflexivity.
  - intros f. unfold accept. rewrite Nat.eqb_refl. simpl. now rewrite andb_true_r.
  - intros t Hin Ht.
    destruct (classify_caret sq d 0 t Hc Hr) as [x Hx]. exists x. split; [exact Hx|].
    apply (in_emitted sq d _ 0 t x Hin); [|exact Hx].
    rewrite Hc, accept_word. simpl.
    destruct Ht as [->|Ht]; [now rewrite Nat.eqb_refl | now rewrite Ht, orb_true_r].
  - intros f Hin Hf.
    destruct (classify_caret sq d f (length d) Hc Hr) as [x Hx]. exists x. split; [exact Hx|].
    apply (in_emitted sq d _ f (length d) x Hin); [|exact Hx].
    rewrite Hc, accept_word, Nat.eqb_refl, andb_true_r.
    destruct Hf as [->|Hf]; [reflexivity | now rewrite Hf, orb_true_r].
Qed.

Lemma document_ends_are_boundaries_witness :
  let d := text "cat dog cat" in
  let sq := {| sq_text := text "cat"; sq_check := true; sq_type := MWord;
               sq_range := {| anchor := 1; head := 1 |} |} in
  selection_query (options 3 100) d (single 1 1) = Some sq /\
  exists x, classify sq d 8 11 = Some x /\ In x (collected sq d [(0, 11)]).
Proof.
  intros d sq.
  assert (Hq : selection_query (options 3 100) d (single 1 1) = Some sq)
    by (vm_compute; reflexivity).
  split; [exact Hq|].
  destruct (document_ends_are_boundaries (options 3 100) d [(0, 11)] (single 1 1) sq
              Hq eq_refl) as (_ & _ & _ & _ & H).
  apply (H 8); [vm_compute; auto | vm_compute; auto].
Defined.

(** C5 (amended): the search is case-insensitive and non-overlapping: each
    occurrence found equals the query up to case inside its visible range,
    every case-insensitive occurrence inside a visible range is found or
    overlaps one found before it (the leftmost non-overlapping occurrences
    are found); in each visible range every occurrence found ends before
    the next one found starts, so an occurrence that overlaps one found
    (starting inside it) is not found; a word-mode occurrence is accepted exactly when both of its
    ends are non-word transitions (the document ends counting as such) and a
    string-mode occurrence is always accepted. *)
Theorem case_insensitive_search conf (d : doc) sel sq :
  selection_query conf d sel = Some sq ->
  (forall part f t, In (f, t) (part_matches sq d part) ->
     lower (slice d f t) = lower (sq_text sq) /\ fst part <= f /\ t <= snd part /\
     t = f + length (sq_text sq)) /\
  (forall part j, fst part <= j -> j + length (sq_text sq) <= snd part ->
     lower (slice d j (j + length (sq_text sq))) = lower (sq_text sq) ->
     exists f t, In (f, t) (part_matches sq d part) /\ f <= j < t) /\
  (forall f t, accept (sq_check sq) d f t =
     match sq_type sq with
     | MWord => ((f =? 0) || negb (is_word_slice d (f - 1) f))
                && ((t =? length d) || negb (is_word_slice d t (t + 1)))
     | MString => true
     end) /\
  (forall part l1 f1 t1 l2 f2 t2 l3,
     part_matches sq d part = l1 ++ (f1, t1) :: l2 ++ (f2, t2) :: l3 -> t1 <= f2) /\
  (forall part f t j, In (f, t) (part_matches sq d part) -> f < j < t ->
     ~ In (j, j + length (sq_text sq)) (part_matches sq d part)).
Proof.
  intros Hq. destruct (selection_query_cases conf d sel sq Hq) as [_ Hcase].
  assert (Hne : sq_text sq <> []).
  { destruct (sq_type sq).
    - destruct Hcase as (_ & _ & a & b & Hw & Ht).
      destruct (wordAt_spec d _ a b Hw) as (Hab & _ & Hb & _).
      rewrite Ht. intros E. assert (L := length_slice d a b). rewrite E in L.
      simpl in L. lia.
    - now destruct Hcase as (_ & _ & H). }
  split; [|split; [|split; [|split]]].
  - intros part f t Hin. unfold part_matches in Hin.
    destruct (search_cursor_sound _ _ _ _ _ _ _ Hin) as (H1 & H2 & H3 & H4).
    repeat split; auto.
  - intros part j H1 H2 H3. unfold part_matches.
    now apply search_cursor_complete.
  - intros f t. destruct (sq_type sq).
    + now destruct Hcase as (-> & _).
    + destruct Hcase as (-> & _). reflexivity.
  - intros part l1 f1 t1 l2 f2 t2 l3 E.
    pose proof (search_cursor_ss lower_ascii d (sq_text sq) (fst part) (snd part)) as Hs.
    fold (part_matches sq d part) in Hs. rewrite E in Hs.
    exact (ss_split before _ _ _ _ _ Hs).
  - intros part f t j Hin Hj Hin'.
    pose proof (search_cursor_ss lower_ascii d (sq_text sq) (fst part) (snd part)) as Hs.
    fold (part_matches sq d part) in Hs.
    destruct (ss_in_order before _ _ _ Hs Hin Hin') as [E|[E|E]]; unfold before in *;
      simpl in *; [injection E; lia | lia | lia].
Qed.

Lemma case_insensitive_search_witness :
  let d := text "Foo foo FOO FoO" in
  let sq := {| sq_text := text "Foo"; sq_check := false; sq_type := MString;
               sq_range := {| anchor := 0; head := 3 |} |} in
  selection_query (options 3 100) d (single 0 3) = Some sq /\
  exists f t, In (f, t) (part_matches sq d (0, 15)) /\ f <= 12 < t.
Proof.
  intros d sq.
  assert (Hq : selection_query (options 3 100) d (single 0 3) = Some sq)
    by (vm_compute; reflexivity).
  split; [exact Hq|].
  destruct (case_insensitive_search (options 3 100) d (single 0 3) sq Hq) as (_ & H & _).
  apply (H (0, 15) 12); vm_compute; [lia | lia | reflexivity].
Defined.

(** C5 (counterexample): selecting "aa" in "aa aaa", the occurrence at
    [[4,6)] equals the query but is not found, since it overlaps the
    occurrence [[3,5)] found before it; so it is not highlighted. *)
Lemma overlapping_occurrence_missed :
  let d := text "aa aaa" in
  let sq := {| sq_text := text "aa"; sq_check := false; sq_type := MString;
               sq_range := {| anchor := 0; head := 2 |} |} in
  selection_query (options 2 100) d (single 0 2) = Some sq /\
  lower (slice d 4 6) = lower (sq_text sq) /\
  selection_matches sq d [(0, 6)] = [(0, 2); (3, 5)] /\
  ~ In (4, 6) (selection_matches sq d [(0, 6)]) /\
  getDeco (options 2 100) d [(0, 6)] (single 0 2) =
    [{| sd_from := 3; sd_to := 5; sd_class := "cm-matched-string";
        sd_contents := text "aa" |}].
Proof.
  vm_compute. split; [reflexivity|]. split; [reflexivity|].
  split; [reflexivity|]. split; [|reflexivity].
  intros [H|[H|[]]]; discriminate.
Qed.

End SelectionClaims.

(* ------------------------------------------------------------------ *)
(** ** The static highlighter *)

Module StaticFacts.
Import Text Static.

(** The nested loops are one loop over the (rule, match) pairs. *)
Lemma run_pairs_app props (d : doc) l1 l2 acc c :
  run_pairs props d (l1 ++ l2) acc c =
  bind (run_pairs props d l1 acc) (run_pairs props d l2) c.
Proof.
  revert acc c; induction l1 as [|[q m] l1 IH]; intros acc c; [reflexivity|].
  simpl. unfold bind at 1 2 3.
  destruct (process_match props d q m acc c) as [[e|a] c']; [reflexivity|].
  apply IH.
Qed.

Lemma scan_matches_pairs props (d : doc) q ms acc c :
  scan_matches props d q ms acc c = run_pairs props d (map (fun m => (q, m)) ms) acc c.
Proof.
  revert acc c; induction ms as [|m ms IH]; intros acc c; [reflexivity|].
  simpl. unfold bind.
  destruct (process_match props d q m acc c) as [[e|a] c']; [reflexivity|].
  apply IH.
Qed.

Lemma scan_queries_pairs rx props (d : doc) part qs acc c :
  scan_queries rx props d part qs acc c = run_pairs props d (query_pairs rx d part qs) acc c.
Proof.
  revert acc c; induction qs as [|q qs IH]; intros acc c; [reflexivity|].
  simpl. destruct (make_cursor rx d q part) as [ms|]; [|apply IH].
  rewrite run_pairs_app. unfold bind. rewrite scan_matches_pairs.
  destruct (run_pairs props d (map (fun m => (q, m)) ms) acc c) as [[e|a] c'];
    [reflexivity | apply IH].
Qed.

Lemma scan_parts_pairs rx props (d : doc) parts qs acc c :
  scan_parts rx props d parts qs acc c = run_pairs props d (scan_pairs rx d parts qs) acc c.
Proof.
  unfold scan_pairs. revert acc c.
  induction parts as [|part parts IH]; intros acc c; [reflexivity|].
  simpl. rewrite run_pairs_app. unfold bind. rewrite scan_queries_pairs.
  destruct (run_pairs props d (query_pairs rx d part qs) acc c) as [[e|a] c'];
    [reflexivity | apply IH].
Qed.

Lemma process_match_excluded props (d : doc) q m acc :
  match_excluded props d m = true -> process_match props d q m acc = ret acc.
Proof.
  unfold match_excluded, process_match. intros H. cbv zeta. now rewrite H.
Qed.

Lemma run_pairs_filter props (d : doc) l acc c :
  run_pairs props d l acc c =
  run_pairs props d (filter (fun qm => negb (match_excluded props d (snd qm))) l) acc c.
Proof.
  revert acc c; induction l as [|[q m] l IH]; intros acc c; [reflexivity|].
  simpl. destruct (match_excluded props d m) eqn:E; simpl.
  - unfold bind. rewrite (process_match_excluded props d q m acc E). apply IH.
  - unfold bind. destruct (process_match props d q m acc c) as [[e|a] c'];
      [reflexivity | apply IH].
Qed.

(** Sorting by [from]. *)
Lemma insert_hdrel (x y : Region) l :
  HdRel (fun a b => r_from a <= r_from b) y l -> r_from y <= r_from x ->
  HdRel (fun a b => r_from a <= r_from b) y (insert_by_from x l).
Proof.
  intros H Hyx. destruct l as [|z l]; simpl.
  - now constructor.
  - destruct (r_from z <? r_from x); constructor; [now inversion H | exact Hyx].
Qed.

Lemma insert_sorted x l : sorted_by_from l -> sorted_by_from (insert_by_from x l).
Proof.
  unfold sorted_by_from. induction l as [|y l IH]; intros H; simpl.
  - repeat constructor.
  - apply Sorted_inv in H. destruct H as [Hl Hh].
    destruct (r_from y <? r_from x) eqn:E.
    + apply Nat.ltb_lt in E. constructor; [now apply IH|].
      apply insert_hdrel; [exact Hh | lia].
    + apply Nat.ltb_ge in E. constructor; [now constructor|]. now constructor.
Qed.

Lemma sort_sorted l : sorted_by_from (sort_by_from l).
Proof.
  induction l as [|x l IH]; simpl; [constructor | now apply insert_sorted].
Qed.

Lemma insert_head (x : Region) l :
  HdRel (fun a b => r_from a <= r_from b) x l -> insert_by_from x l = x :: l.
Proof.
  intros H. destruct l as [|y l]; simpl; [reflexivity|].
  inversion H; subst.
  replace (r_from y <? r_from x) with false by (symmetry; apply Nat.ltb_ge; lia).
  reflexivity.
Qed.

Lemma sort_of_sorted l : sorted_by_from l -> sort_by_from l = l.
Proof.
  unfold sorted_by_from. induction l as [|x l IH]; intros H; simpl; [reflexivity|].
  apply Sorted_inv in H. destruct H as [Hl Hh].
  rewrite (IH Hl). now apply insert_head.
Qed.

Lemma finalize_shape acc c res c' :
  finalize acc c = (inr res, c') ->
  exists ls, res = {| line := sort_by_from ls;
                      token := sort_by_from (tokenDecos acc);
                      group := sort_by_from (groupDecos acc);
                      widget := sort_by_from (widgetDecos acc) |}.
Proof.
  unfold finalize, bind. destruct (line_regions (lineClasses acc) c) as [[e|ls] c1];
    [discriminate|].
  simpl. intros H. inversion H. eauto.
Qed.

(** The cache only grows during a scan. *)
Lemma bind_appends {A B} (m : M A) (k : A -> M B) :
  Appends m -> (forall a, Appends (k a)) -> Appends (bind m k).
Proof.
  intros Hm Hk c. unfold bind. destruct (Hm c) as [l1 H1].
  destruct (m c) as [[e|a] c1]; simpl in H1; subst c1.
  - exists l1. reflexivity.
  - destruct (Hk a (c ++ l1)) as [l2 H2]. exists (l1 ++ l2).
    rewrite H2, app_assoc. reflexivity.
Qed.

Lemma ret_appends {A} (a : A) : Appends (ret a).
Proof. intros c. exists []. simpl. now rewrite app_nil_r. Qed.

Lemma throw_appends {A} e : Appends (@throw A e).
Proof. intros c. exists []. simpl. now rewrite app_nil_r. Qed.

Lemma try_catch_appends {A} (m : M A) h :
  Appends m -> (forall e, Appends (h e)) -> Appends (try_catch m h).
Proof.
  intros Hm Hh c. unfold try_catch. destruct (Hm c) as [l1 H1].
  destruct (m c) as [[e|a] c1]; simpl in H1; subst c1.
  - destruct (Hh e (c ++ l1)) as [l2 H2]. exists (l1 ++ l2).
    rewrite H2, app_assoc. reflexivity.
  - exists l1. reflexivity.
Qed.

Lemma getDecoration_appends t cls attrs : Appends (getDecoration t cls attrs).
Proof.
  intros c. unfold getDecoration. destruct (cache_get _ c).
  - exists []. simpl. now rewrite app_nil_r.
  - eexists. reflexivity.
Qed.

Lemma createRange_appends dd from to : Appends (createRange dd from to).
Proof.
  unfold createRange. destruct dd; [destruct (to <=? from) | destruct (negb _) |];
    first [apply ret_appends | apply throw_appends].
Qed.

Ltac appends_step :=
  match goal with
  | |- Appends (bind _ _) => apply bind_appends; [|intros]
  | |- Appends (ret _) => apply ret_appends
  | |- Appends (throw _) => apply throw_appends
  | |- Appends (try_catch _ _) => apply try_catch_appends; [|intros]
  | |- Appends (getDecoration _ _ _) => apply getDecoration_appends
  | |- Appends (createRange _ _ _) => apply createRange_appends
  | |- Appends (match ?x with _ => _ end) => destruct x
  end.

Lemma process_groups_appends linePos gs acc : Appends (process_groups linePos gs acc).
Proof.
  revert acc; induction gs as [|g gs IH]; intros acc; simpl; [apply ret_appends|].
  apply bind_appends; [|intros; apply IH].
  unfold process_group. repeat appends_step.
Qed.

Lemma process_match_appends props (d : doc) q m acc : Appends (process_match props d q m acc).
Proof.
  unfold process_match. cbv zeta.
  repeat first [appends_step | apply process_groups_appends].
Qed.

Lemma run_pairs_appends props (d : doc) l acc : Appends (run_pairs props d l acc).
Proof.
  revert acc; induction l as [|[q m] l IH]; intros acc; simpl; [apply ret_appends|].
  apply bind_appends; [apply process_match_appends | intros; apply IH].
Qed.

Lemma line_regions_appends lc : Appends (line_regions lc).
Proof.
  induction lc as [|[pos classes] lc IH]; simpl; [apply ret_appends|].
  repeat first [appends_step | apply IH].
Qed.

Lemma cleanup_length c : length (cleanup c) <= 100.
Proof.
  unfold cleanup. destruct (100 <? length c) eqn:E.
  - rewrite length_skipn. apply Nat.ltb_lt in E. lia.
  - apply Nat.ltb_ge in E. exact E.
Qed.

End StaticFacts.

Module StaticClaims.
Import Text Static StaticFacts StaticViews.

(** C2: a match whose line start (queried at [line_start + 1]) is in an
    excluded section contributes nothing: processing it leaves the
    accumulator (token, group, widget regions and line classes) and the
    cache as they were, so the whole scan is the scan of the remaining
    (rule, match) pairs only. *)
Theorem excluded_matches_emit_nothing rx props (d : doc) vis queries :
  (forall q m acc c, match_excluded props d m = true ->
     process_match props d q m acc c = (inr acc, c)) /\
  (forall c, getDeco rx props d vis queries c =
     bind (run_pairs props d
             (filter (fun qm => negb (match_excluded props d (snd qm)))
                     (scan_pairs rx d vis queries)) empty_acc) finalize c).
Proof.
  split.
  - intros q m acc c H. now rewrite (process_match_excluded props d q m acc H).
  - intros c. unfold getDeco, bind at 1 2.
    rewrite scan_parts_pairs, run_pairs_filter. reflexivity.
Qed.

(** C6: whenever a pass returns, each of the four published sets is
    sorted by its start offset, and sorting it again changes nothing. *)
Theorem published_sets_sorted rx props (d : doc) vis queries c :
  match fst (getDeco rx props d vis queries c) with
  | inr res =>
      (sorted_by_from (line res) /\ sort_by_from (line res) = line res) /\
      (sorted_by_from (group res) /\ sort_by_from (group res) = group res) /\
      (sorted_by_from (token res) /\ sort_by_from (token res) = token res) /\
      (sorted_by_from (widget res) /\ sort_by_from (widget res) = widget res)
  | inl _ => True
  end.
Proof.
  unfold getDeco, bind at 1.
  destruct (scan_parts rx props d vis queries empty_acc c) as [[e|acc] c1]; [exact I|].
  destruct (finalize acc c1) as [[e|res] c2] eqn:E; [exact I|]. simpl.
  destruct (finalize_shape acc c1 res c2 E) as [ls ->]. simpl.
  repeat split; try apply sort_sorted; apply sort_of_sorted, sort_sorted.
Qed.

(** C7: eviction keeps exactly the 50 last-inserted entries (the tail of
    the insertion-ordered pool) when the pool holds more than 100 entries
    and leaves it unchanged otherwise; a pass that returns has only added
    entries to the pool before evicting once at its end, so afterwards the
    pool holds at most 100 entries. *)
Theorem cache_bounded_after_pass :
  (forall cc : Cache, 100 < length cc ->
     cleanup cc = skipn (length cc - 50) cc /\ length (cleanup cc) = 50 /\
     cc = firstn (length cc - 50) cc ++ cleanup cc) /\
  (forall cc : Cache, length cc <= 100 -> cleanup cc = cc) /\
  (forall rx props (d : doc) vis queries c res c',
     getDeco rx props d vis queries c = (inr res, c') ->
     (exists added, c' = cleanup (c ++ added)) /\ length c' <= 100).
Proof.
  split; [|split].
  - intros cc H. unfold cleanup.
    replace (100 <? length cc) with true by (symmetry; apply Nat.ltb_lt; exact H).
    split; [reflexivity|]. split.
    + rewrite length_skipn. lia.
    + symmetry. apply firstn_skipn.
  - intros cc H. unfold cleanup.
    replace (100 <? length cc) with false by (symmetry; apply Nat.ltb_ge; exact H).
    reflexivity.
  - intros rx props d vis queries c res c' H.
    unfold getDeco, bind at 1 in H.
    pose proof (run_pairs_appends props d (scan_pairs rx d vis queries) empty_acc c)
      as [l1 H1].
    rewrite <- scan_parts_pairs in H1.
    destruct (scan_parts rx props d vis queries empty_acc c) as [[e|acc] c1];
      [discriminate|]. simpl in H1. subst c1.
    unfold finalize, bind in H.
    pose proof (line_regions_appends (lineClasses acc) (c ++ l1)) as [l2 H2].
    destruct (line_regions (lineClasses acc) (c ++ l1)) as [[e|ls] c2];
      [discriminate|]. simpl in H2. subst c2.
    unfold cleanup_m, ret in H. inversion H; subst c'.
    split; [|apply cleanup_length].
    exists (l1 ++ l2). now rewrite app_assoc.
Qed.

(** C8 (counterexample): the pattern [^] compiles and its cursor yields
    the empty match at offset 0; the token path hands the empty span to
    [createRange] outside any [try], so the pass throws CodeMirror's
    "Mark decorations may not be empty" to its caller instead of returning
    four region sets. *)
Lemma empty_match_escapes :
  fst (getDeco caret_regexp_cursor (fun _ => None) (Samples.text "ab") [(0, 2)]
         [caret_rule] []) = inl "Mark decorations may not be empty"%string.
Proof. vm_compute. reflexivity. Qed.

End StaticClaims.

(* ------------------------------------------------------------------ *)
(** ** The update scheduler *)

Module SchedulerClaims.
Import Scheduler.
Local Open Scope Z_scope.

(** C9: the adaptive delay is the configured delay, raised to at least 300
    above 50000 characters and to at least 500 above 100000, plus 100 when
    the visible ranges span more than 10000 characters; an update then
    schedules with [max(delay, 200)] when it is typing and with
    [min(delay, 100)] when it is a pure scroll (the two cases exclude each
    other), the floor 200 and the ceiling 100 being fixed whatever the
    computed delay, and with the computed delay otherwise. *)
Theorem adaptive_delay_rules :
  (forall base size vis,
     adaptive_delay base size vis =
       (if 100000 <? size then Z.max base 500
        else if 50000 <? size then Z.max base 300 else base) +
       (if 10000 <? visible_range_size vis then 100 else 0)) /\
  (forall base size vis, 50000 < size -> 300 <= adaptive_delay base size vis) /\
  (forall base size vis, 100000 < size -> 500 <= adaptive_delay base size vis) /\
  (forall base size vis, base <= adaptive_delay base size vis) /\
  (forall delay u, docChanged u = true -> typedInput u = true ->
     effective_delay delay u = Some (Z.max delay 200)) /\
  (forall delay u, viewportChanged u = true -> docChanged u = false ->
     selectionSet u = false -> effective_delay delay u = Some (Z.min delay 100)) /\
  (forall delay u, selectionSet u || docChanged u || viewportChanged u = true ->
     negb (docChanged u && typedInput u) = true ->
     negb (viewportChanged u && negb (docChanged u) && negb (selectionSet u)) = true ->
     effective_delay delay u = Some delay) /\
  (forall delay u, selectionSet u || docChanged u || viewportChanged u = false ->
     effective_delay delay u = None).
Proof.
  assert (Hvis : forall v, 0 <= (if 10000 <? visible_range_size v then 100 else 0))
    by (intros v; destruct (10000 <? visible_range_size v); lia).
  assert (Heq : forall base size vis,
     adaptive_delay base size vis =
       (if 100000 <? size then Z.max base 500
        else if 50000 <? size then Z.max base 300 else base) +
       (if 10000 <? visible_range_size vis then 100 else 0)).
  { intros base size vis. unfold adaptive_delay. cbv zeta.
    destruct (100000 <? size) eqn:E1; destruct (50000 <? size) eqn:E2;
      destruct (10000 <? visible_range_size vis); try lia. }
  split; [exact Heq|]. split; [|split; [|split; [|split; [|split; [|split]]]]].
  - intros base size vis H. rewrite Heq. specialize (Hvis vis).
    replace (50000 <? size) with true by (symmetry; apply Z.ltb_lt; lia).
    destruct (100000 <? size); lia.
  - intros base size vis H. rewrite Heq. specialize (Hvis vis).
    replace (100000 <? size) with true by (symmetry; apply Z.ltb_lt; lia). lia.
  - intros base size vis. rewrite Heq. specialize (Hvis vis).
    destruct (100000 <? size); [|destruct (50000 <? size)]; lia.
  - intros delay u H1 H2. unfold effective_delay. cbv zeta.
    rewrite H1, H2. rewrite orb_true_r, orb_true_l. simpl.
    destruct (viewportChanged u); reflexivity.
  - intros delay u H1 H2 H3. unfold effective_delay. cbv zeta.
    rewrite H1, H2, H3. reflexivity.
  - intros delay u H1 H2 H3. unfold effective_delay. cbv zeta.
    rewrite H1. apply negb_true_iff in H2, H3. rewrite H2, H3. reflexivity.
  - intros delay u H. unfold effective_delay. now rewrite H.
Qed.

End SchedulerClaims.

(* ------------------------------------------------------------------ *)
(** ** Further properties of the selection highlighter *)

Module SelectionExtras.
Import Text TextFacts Selection SelectionFacts Config SelectionViews.

Lemma merge_with_eq {A} (eqb : A -> A -> bool) (f : A -> A -> A) a b :
  (forall x y, eqb x y = true -> x = y) -> (forall x, f x x = x) ->
  merge_with eqb f a b = f a b.
Proof.
  intros Heq Hf. unfold merge_with. destruct (eqb a b) eqn:E; [|reflexivity].
  apply Heq in E. subst. now rewrite Hf.
Qed.

Lemma leqb_eq a b : leqb a b = true -> a = b.
Proof. apply leqb_true. Qed.

Lemma str_or_idem a : str_or a a = a.
Proof. now destruct a. Qed.

Lemma first_nonempty_str_or a b rest :
  first_nonempty (str_or a b :: rest) = first_nonempty (a :: b :: rest).
Proof.
  unfold first_nonempty. destruct a as [|x a]; simpl; reflexivity.
Qed.

(** [highlightConfig] combines the configurations as follows: none gives
    the defaults; otherwise the word-around-cursor flags are or-ed, the
    three numbers take their minimum, [ignoredWords] is the first
    non-empty one, and [highlightSelectedText] must agree everywhere, a
    disagreement throwing a merge conflict. *)
Theorem highlightConfig_combine dflt o os :
  combine dflt [] = inr (defaultHighlightOptions dflt) /\
  combine dflt (o :: os) =
    if forallb (fun v => Bool.eqb (highlightSelectedText o) (highlightSelectedText v)) os then
      inr {| highlightWordAroundCursor := existsb highlightWordAroundCursor (o :: os);
             highlightSelectedText := highlightSelectedText o;
             minSelectionLength := fold_left Z.min (map minSelectionLength os) (minSelectionLength o);
             maxMatches := fold_left Z.min (map maxMatches os) (maxMatches o);
             ignoredWords := first_nonempty (map ignoredWords (o :: os));
             highlightDelay := fold_left Z.min (map highlightDelay os) (highlightDelay o) |}
    else inl "Config merge conflict for field highlightSelectedText"%string.
Proof.
  split; [reflexivity|]. simpl. revert o.
  induction os as [|v os IH]; intros o; simpl.
  - destruct o; simpl. rewrite orb_false_r.
    unfold first_nonempty. simpl. destruct ignoredWords0; reflexivity.
  - unfold merge_options. destruct (Bool.eqb (highlightSelectedText o) (highlightSelectedText v)) eqn:E;
      [|reflexivity].
    rewrite IH. simpl. apply Bool.eqb_prop in E.
    rewrite !merge_with_eq;
      try (intros; first [now apply Bool.eqb_prop | now apply Z.eqb_eq | now apply leqb_eq]);
      try (intros; first [apply orb_diag | apply Z.min_id | apply str_or_idem]).
    rewrite E. destruct (forallb _ os); [|reflexivity].
    rewrite orb_assoc, first_nonempty_str_or. reflexivity.
Qed.

Lemma lower_ascii_idem c : lower_ascii (lower_ascii c) = lower_ascii c.
Proof. destruct c as [[] [] [] [] [] [] [] []]; reflexivity. Qed.

Lemma lower_idem l : lower (lower l) = lower l.
Proof. unfold lower. rewrite map_map. apply map_ext, lower_ascii_idem. Qed.

Lemma split_on_lower l : split_on "," (lower l) = map lower (split_on "," l).
Proof.
  induction l as [|c l IH]; [reflexivity|].
  change (lower (c :: l)) with (lower_ascii c :: lower l). simpl.
  rewrite IH.
  destruct (ascii_dec c ",") as [E|E].
  - subst c. reflexivity.
  - destruct (ascii_dec (lower_ascii c) ",") as [E'|E'].
    + exfalso. apply E. destruct c as [[] [] [] [] [] [] [] []];
        vm_compute in E'; try discriminate; vm_compute; reflexivity.
    + destruct (split_on "," l) as [|w ws]; reflexivity.
Qed.

(** The ignore list is case-insensitive on both sides: upper-casing
    letters in the word or in the configured list changes nothing. *)
Theorem ignored_words_case_insensitive ws w :
  is_ignored ws (lower w) = is_ignored ws w /\
  is_ignored (lower ws) w = is_ignored ws w.
Proof.
  unfold is_ignored. split.
  - now rewrite lower_idem.
  - rewrite split_on_lower. induction (split_on "," ws) as [|x xs IH]; [reflexivity|].
    simpl. now rewrite lower_idem, IH.
Qed.

(** [wordAt] finds no word exactly when neither the character before the
    position nor the one after it is a word character. *)
Theorem wordAt_none_iff (d : doc) p :
  wordAt d p = None <-> (p = 0 \/ is_word_at d (p - 1) = false) /\ is_word_at d p = false.
Proof.
  unfold wordAt. destruct (word_left_spec d p) as (Hl1 & Hl2 & _).
  assert (Hr : word_right d p = p \/ (is_word_at d p = true /\ p < word_right d p)).
  { unfold word_right. destruct (length d - p) eqn:E; simpl; [now left|].
    destruct (is_word_at d p) eqn:W; [|now left]. right. split; [reflexivity|].
    destruct (word_right_fuel_spec d n (S p)) as [H _]; [lia|lia]. }
  split.
  - intros H. destruct (word_left d p =? word_right d p) eqn:E; [|discriminate].
    apply Nat.eqb_eq in E. split.
    + destruct p as [|p']; [now left|right]. simpl. rewrite Nat.sub_0_r.
      destruct (is_word_at d p') eqn:W; [|reflexivity].
      exfalso. simpl in E. rewrite W in E.
      pose proof (proj1 (word_left_spec d p')). destruct Hr as [Hr|[_ Hr]]; lia.
    + destruct Hr as [Hr|[W Hr]]; [|lia].
      destruct (is_word_at d p) eqn:W; [|reflexivity]. exfalso.
      unfold word_right in Hr. destruct (length d - p) eqn:E2.
      * apply is_word_at_lt in W. lia.
      * simpl in Hr. rewrite W in Hr.
        destruct (word_right_fuel_spec d n (S p)) as [H1 _]; lia.
  - intros [H1 H2]. assert (Hl : word_left d p = p).
    { destruct p as [|p']; [reflexivity|]. simpl. destruct H1 as [H1|H1]; [discriminate|].
      simpl in H1. rewrite Nat.sub_0_r in H1. now rewrite H1. }
    destruct Hr as [Hr|[W _]]; [|congruence].
    rewrite Hl, Hr, Nat.eqb_refl. reflexivity.
Qed.

Lemma ss_app {A} (R : A -> A -> Prop) l1 l2 :
  StronglySorted R l1 -> StronglySorted R l2 ->
  (forall x y, In x l1 -> In y l2 -> R x y) -> StronglySorted R (l1 ++ l2).
Proof.
  induction l1 as [|x l1 IH]; intros H1 H2 H; simpl; [exact H2|].
  apply StronglySorted_inv in H1 as [H1 Hx]. constructor.
  - apply IH; auto. intros; apply H; simpl; auto.
  - apply Forall_app. split; [exact Hx|]. apply Forall_forall. intros y Hy.
    apply H; simpl; auto.
Qed.

Lemma parts_ss (vis : list (nat * nat)) :
  Sorted before vis -> Forall (fun p => fst p <= snd p) vis -> StronglySorted before vis.
Proof.
  induction vis as [|p vis IH]; intros Hs Hw; [constructor|].
  apply Sorted_inv in Hs as [Hs Hh]. inversion Hw; subst.
  pose proof (IH Hs H2) as Hss. constructor; [exact Hss|].
  destruct vis as [|q vis]; [constructor|]. inversion Hh; subst.
  apply StronglySorted_inv in Hss as [_ Hq]. inversion H2; subst.
  constructor; [exact H0|]. eapply Forall_impl; [|exact Hq].
  unfold before in *. intros x Hx. lia.
Qed.

Lemma selection_matches_ss sq (d : doc) vis :
  StronglySorted before vis -> StronglySorted before (selection_matches sq d vis).
Proof.
  unfold selection_matches. induction vis as [|p vis IH]; intros H; simpl; [constructor|].
  apply StronglySorted_inv in H as [H Hp]. apply ss_app.
  - apply search_cursor_ss.
  - now apply IH.
  - intros [f t] [f' t'] H1 H2. unfold part_matches in H1.
    apply search_cursor_sound in H1. apply in_flat_map in H2 as [p' [Hp' H2]].
    unfold part_matches in H2. apply search_cursor_sound in H2.
    rewrite Forall_forall in Hp. specialize (Hp p' Hp'). unfold before in *. simpl. lia.
Qed.

Lemma classify_span sq (d : doc) f t x :
  classify sq d f t = Some x -> sd_from x = f /\ sd_to x = t.
Proof.
  unfold classify. destruct (_ && _ && _); [|destruct (_ || _)];
    intros H; inversion H; subst; simpl; auto.
Qed.

Lemma in_emitted_span sq (d : doc) ms x :
  In x (emitted sq d ms) -> In (sd_from x, sd_to x) ms.
Proof.
  induction ms as [|[f t] ms IH]; simpl; [tauto|].
  destruct (accept _ d f t); [|intros H; right; now apply IH].
  intros H. apply in_app_or in H as [H|H]; [|right; now apply IH].
  left. destruct (classify sq d f t) as [y|] eqn:E; simpl in H; [|contradiction].
  destruct H as [H|H]; [subst y|contradiction].
  destruct (classify_span sq d f t x E) as [-> ->]. reflexivity.
Qed.

Lemma emitted_ss sq (d : doc) ms :
  StronglySorted before ms ->
  StronglySorted (fun x y => sd_to x <= sd_from y) (emitted sq d ms).
Proof.
  induction ms as [|[f t] ms IH]; intros H; simpl; [constructor|].
  apply StronglySorted_inv in H as [H Hf].
  destruct (accept _ d f t); [|now apply IH].
  apply ss_app; [|now apply IH|].
  - destruct (classify sq d f t); simpl; repeat constructor.
  - intros x y Hx Hy. apply in_emitted_span in Hy.
    assert (sd_to x = t).
    { destruct (classify sq d f t) as [z|] eqn:E; simpl in Hx; [|contradiction].
      destruct Hx as [Hx|Hx]; [subst z|contradiction].
      apply (classify_span sq d f t x E). }
    rewrite Forall_forall in Hf. specialize (Hf _ Hy). unfold before in Hf. simpl in Hf. lia.
Qed.

Lemma selection_matches_nonempty sq (d : doc) vis f t :
  In (f, t) (selection_matches sq d vis) -> f < t.
Proof.
  intros H. apply in_flat_map in H as [p [_ H]]. unfold part_matches, search_cursor in H.
  destruct (sq_text sq) as [|c q] eqn:E; [contradiction|].
  rewrite <- E in H. apply search_from_sound in H. rewrite E in H. simpl in H. lia.
Qed.

(** When the visible ranges are in order and do not overlap (as
    CodeMirror's are), the decorations handed to [Decoration.set] are
    non-empty, in order and pairwise disjoint, as a [RangeSet] built
    without sorting requires. *)
Theorem getDeco_sorted_disjoint conf (d : doc) vis sel :
  Sorted before vis -> Forall (fun p => fst p <= snd p) vis ->
  Sorted (fun x y => sd_to x <= sd_from y) (getDeco conf d vis sel) /\
  Forall (fun x => sd_from x < sd_to x) (getDeco conf d vis sel).
Proof.
  intros Hs Hw. destruct (selection_query conf d sel) as [sq|] eqn:Hq.
  2:{ unfold getDeco. rewrite Hq. split; constructor. }
  rewrite (getDeco_spec conf d vis sel sq Hq). cbv zeta.
  destruct (_ || _)%Z; [split; constructor|]. split.
  - apply StronglySorted_Sorted, emitted_ss, selection_matches_ss, parts_ss; assumption.
  - apply Forall_forall. intros x Hx. apply in_emitted_span in Hx.
    now apply selection_matches_nonempty in Hx.
Qed.

Lemma getDeco_sorted_disjoint_witness :
  let out := getDeco (Samples.options 3 100) (Samples.text "cat cat") [(0, 3); (3, 7)]
               (Samples.single 1 1) in
  length out = 2 /\
  Sorted (fun x y => sd_to x <= sd_from y) out /\ Forall (fun x => sd_from x < sd_to x) out.
Proof.
  split; [vm_compute; reflexivity|].
  apply getDeco_sorted_disjoint.
  - repeat constructor.
  - repeat constructor.
Defined.

Lemma in_emitted_inv sq (d : doc) ms y :
  In y (emitted sq d ms) ->
  exists f t, In (f, t) ms /\ accept (sq_check sq) d f t = true /\ classify sq d f t = Some y.
Proof.
  induction ms as [|[f t] ms IH]; simpl; [tauto|].
  destruct (accept _ d f t) eqn:A.
  - intros H. apply in_app_or in H as [H|H].
    + destruct (classify sq d f t) as [z|] eqn:E; simpl in H; [|contradiction].
      destruct H as [H|H]; [subst z|contradiction]. exists f, t. auto.
    + destruct (IH H) as (f' & t' & ? & ? & ?). exists f', t'. auto.
  - intros H. destruct (IH H) as (f' & t' & ? & ? & ?). exists f', t'. auto.
Qed.

(** An occurrence of the caret's word found by the case-insensitive cursor
    that touches the word is the word itself: the word is a maximal run of
    word characters and so is every case variant of it. *)
Lemma found_word_is_word (d : doc) h a b x y f t :
  wordAt d h = Some (a, b) ->
  In (f, t) (search_cursor lower_ascii d (slice d a b) x y) ->
  f <= b -> a <= t -> f = a /\ t = b.
Proof.
  intros Hw Hin Hfb Hat.
  destruct (wordAt_spec d h a b Hw) as (Hab & Hh & Hb & Hword & Hleft & Hright).
  apply search_cursor_sound in Hin as (Ht & _ & _ & Hm).
  assert (Hlen : length (slice d a b) = b - a) by (rewrite length_slice; lia).
  assert (Hlen2 : length (slice d f t) = b - a).
  { rewrite <- (length_map lower_ascii (slice d f t)), Hm, length_map. exact Hlen. }
  rewrite length_slice in Hlen2.
  assert (Htd : t <= length d) by lia.
  assert (Hall : forall i, f <= i < t -> is_word_at d i = true).
  { apply (forallb_slice d f t Htd). rewrite <- forallb_word_lower, Hm, forallb_word_lower.
    apply (forallb_slice d a b Hb). exact Hword. }
  assert (a <= f).
  { destruct (Nat.le_gt_cases a f) as [|Hf]; [assumption|].
    destruct Hleft as [Ha|Ha]; [lia|]. rewrite Hall in Ha; [discriminate|lia]. }
  assert (t <= b).
  { destruct (Nat.le_gt_cases t b) as [|Htb]; [assumption|].
    rewrite Hall in Hright; [discriminate|lia]. }
  lia.
Qed.

(** For a caret inside a word that lies in a visible range, a non-empty
    result contains the word's own span as [cm-current-word], and every
    [cm-current-word] region of the result is that span. *)
Theorem caret_word_is_current conf (d : doc) vis sel a b part :
  rempty (main sel) = true ->
  wordAt d (head (main sel)) = Some (a, b) ->
  In part vis -> fst part <= a -> b <= snd part ->
  getDeco conf d vis sel <> [] ->
  In {| sd_from := a; sd_to := b; sd_class := "cm-current-word";
        sd_contents := trim (slice d a b) |} (getDeco conf d vis sel) /\
  (forall y, In y (getDeco conf d vis sel) -> sd_class y = "cm-current-word"%string ->
     sd_from y = a /\ sd_to y = b).
Proof.
  intros Hr Hw Hp Hpa Hpb Hne.
  destruct (selection_query conf d sel) as [sq|] eqn:Hq.
  2:{ exfalso. apply Hne. unfold getDeco. now rewrite Hq. }
  destruct (selection_query_cases conf d sel sq Hq) as [Hrange Hcase].
  destruct (sq_type sq) eqn:Ht.
  2:{ exfalso. destruct Hcase as (_ & Hr' & _). rewrite Hrange, Hr in Hr'. discriminate. }
  destruct Hcase as (Hc & _ & a' & b' & Hw' & Htext).
  rewrite Hrange, Hw in Hw'. injection Hw' as <- <-.
  pose proof (getDeco_spec conf d vis sel sq Hq) as Hg. cbv zeta in Hg.
  destruct (_ || _)%Z eqn:Hcond in Hg; [exfalso; now apply Hne|]. rewrite Hg.
  destruct (rempty_eq _ Hr) as [Hft Hfh].
  destruct (wordAt_spec d _ a b Hw) as (Hab & Hh & Hb & _ & Hleft & Hright).
  split.
  - assert (Hfound : In (a, b) (part_matches sq d part)).
    { unfold part_matches. rewrite Htext.
      destruct (search_cursor_complete lower_ascii d (slice d a b) (fst part) (snd part) a)
        as (f & t & Hin & Hf & Hft').
      + intros E. assert (length (slice d a b) = 0) by now rewrite E.
        rewrite length_slice in H. lia.
      + exact Hpa.
      + rewrite length_slice. lia.
      + f_equal. f_equal. rewrite length_slice. f_equal. lia.
      + destruct (found_word_is_word d _ a b _ _ f t Hw Hin) as [-> ->]; [lia|lia|exact Hin]. }
    apply (in_emitted sq d _ a b).
    + unfold selection_matches. apply in_flat_map. now exists part.
    + rewrite Hc, accept_word, Hright. destruct Hleft as [-> | ->]; simpl;
        now rewrite ?orb_true_r.
    + unfold classify. rewrite Hc, Hrange, Ht. simpl.
      replace (a <=? rfrom (main sel)) with true by (symmetry; apply Nat.leb_le; lia).
      replace (rto (main sel) <=? b) with true by (symmetry; apply Nat.leb_le; lia).
      reflexivity.
  - intros y Hy Hcls. apply in_emitted_inv in Hy as (f & t & Hin & _ & Hcl).
    destruct (classify_span sq d f t y Hcl) as [Hyf Hyt].
    unfold classify in Hcl. rewrite Hc, Ht in Hcl. simpl in Hcl.
    destruct ((f <=? rfrom (sq_range sq)) && (rto (sq_range sq) <=? t)) eqn:E.
    + apply andb_true_iff in E as [E1 E2]. apply Nat.leb_le in E1, E2.
      rewrite Hrange in E1, E2.
      apply in_flat_map in Hin as [p [_ Hin]]. unfold part_matches in Hin. rewrite Htext in Hin.
      destruct (found_word_is_word d _ a b _ _ f t Hw Hin) as [-> ->]; [lia|lia|].
      split; assumption.
    + destruct ((rto (sq_range sq) <=? f) || (t <=? rfrom (sq_range sq))); [|discriminate Hcl].
      injection Hcl as <-. simpl in Hcls. discriminate Hcls.
Qed.

Lemma caret_word_is_current_witness :
  let d := Samples.text "Cat cat" in
  let out := getDeco (Samples.options 3 100) d [(0, 7)] (Samples.single 1 1) in
  out = [{| sd_from := 0; sd_to := 3; sd_class := "cm-current-word";
            sd_contents := Samples.text "Cat" |};
         {| sd_from := 4; sd_to := 7; sd_class := "cm-matched-word";
            sd_contents := Samples.text "cat" |}] /\
  In {| sd_from := 0; sd_to := 3; sd_class := "cm-current-word";
        sd_contents := trim (slice d 0 3) |} out /\
  (forall y, In y out -> sd_class y = "cm-current-word"%string -> sd_from y = 0 /\ sd_to y = 3).
Proof.
  split; [vm_compute; reflexivity|].
  apply (caret_word_is_current (Samples.options 3 100) (Samples.text "Cat cat") [(0, 7)]
           (Samples.single 1 1) 0 3 (0, 7)).
  - vm_compute; reflexivity.
  - vm_compute; reflexivity.
  - simpl; auto.
  - simpl; lia.
  - simpl; lia.
  - vm_compute; discriminate.
Defined.

End SelectionExtras.

(* ------------------------------------------------------------------ *)
(** ** The stored delay and the theme *)

Module DelayExtras.
Import Scheduler DelayState.
Local Open Scope Z_scope.

Lemma run_refresh_app stored base views l :
  run_refresh stored base (views ++ l) = run_refresh (run_refresh stored base views) base l.
Proof.
  revert stored; induction views as [|[s v] views IH]; intros stored; [reflexivity|].
  simpl. apply IH.
Qed.

(** The stored delay is only recomputed while it differs from the
    configured delay: once it equals it, no later [getDeco] changes it,
    whatever the document; while it differs, each [getDeco] sets it to the
    adaptive delay of the current view.  So a plugin constructed on a
    document of at most 50000 characters with at most 10000 visible keeps
    the configured delay, and typing is delayed by [max(delay, 200)] even
    after the document has grown past the large-document thresholds. *)
Theorem stored_delay_refresh base :
  (forall views, run_refresh base base views = base) /\
  (forall stored views s v, run_refresh stored base views <> base ->
     run_refresh stored base (views ++ [(s, v)]) = adaptive_delay base s v) /\
  (forall s0 v0 views u, s0 <= 50000 -> visible_range_size v0 <= 10000 ->
     docChanged u = true -> typedInput u = true ->
     effective_delay (run_refresh (construct_delay base s0 v0) base views) u
       = Some (Z.max base 200)).
Proof.
  assert (Hfix : forall views, run_refresh base base views = base).
  { induction views as [|[s v] views IH]; [reflexivity|].
    simpl. unfold refresh_delay. now rewrite Z.eqb_refl. }
  split; [exact Hfix|split].
  - intros stored views s v H. rewrite run_refresh_app. simpl. unfold refresh_delay.
    apply Z.eqb_neq in H. now rewrite H.
  - intros s0 v0 views u H1 H2 H3 H4.
    assert (Hc : construct_delay base s0 v0 = base).
    { unfold construct_delay, adaptive_delay. cbv zeta.
      replace (50000 <? s0) with false by (symmetry; apply Z.ltb_ge; lia).
      replace (100000 <? s0) with false by (symmetry; apply Z.ltb_ge; lia).
      replace (10000 <? visible_range_size v0) with false by (symmetry; apply Z.ltb_ge; lia).
      reflexivity. }
    rewrite Hc, Hfix. unfold effective_delay. cbv zeta. rewrite H3, H4.
    rewrite orb_true_r, orb_true_l. simpl. destruct (viewportChanged u); reflexivity.
Qed.

End DelayExtras.

Module StylesExtras.
Import Static Styles.
Local Open Scope string_scope.

Lemma obj_get_set k k' v o :
  obj_get k (obj_set k' v o) = if String.eqb k k' then Some v else obj_get k o.
Proof.
  induction o as [|[k1 v1] o IH]; simpl.
  - destruct (String.eqb k k'); reflexivity.
  - destruct (String.eqb k' k1) eqn:E1; simpl.
    + apply String.eqb_eq in E1. subst k1. destruct (String.eqb k k'); reflexivity.
    + destruct (String.eqb k k1) eqn:E2; rewrite ?IH.
      * apply String.eqb_eq in E2. subst k1.
        destruct (String.eqb k k') eqn:E3; [|reflexivity].
        apply String.eqb_eq in E3. subst. rewrite String.eqb_refl in E1. discriminate.
      * reflexivity.
Qed.

Lemma in_keys_set k' k v o : In k' (map fst (obj_set k v o)) -> k' = k \/ In k' (map fst o).
Proof.
  induction o as [|[k1 v1] o IH]; simpl.
  - intros [H|[]]. now left.
  - destruct (String.eqb k k1); simpl; intros [H|H]; auto.
    destruct (IH H); auto.
Qed.

Lemma nodup_set k v o : NoDup (map fst o) -> NoDup (map fst (obj_set k v o)).
Proof.
  induction o as [|[k1 v1] o IH]; simpl; intros H.
  - repeat constructor. simpl; tauto.
  - inversion H; subst. destruct (String.eqb k k1) eqn:E; simpl; constructor; auto.
    intros Hin. apply in_keys_set in Hin as [Hin|Hin]; [|contradiction].
    subst. rewrite String.eqb_refl in E. discriminate.
Qed.

Lemma dot_eqb a b : String.eqb ("." ++ a) ("." ++ b) = String.eqb a b.
Proof.
  destruct (String.eqb a b) eqn:E.
  - apply String.eqb_eq in E. subst. apply String.eqb_refl.
  - apply String.eqb_neq. intros H. simpl in H. injection H as H.
    apply String.eqb_neq in E. contradiction.
Qed.

Lemma build_styles_get cls queries st acc :
  obj_get ("." ++ cls) st = option_map (fun c => {| backgroundColor := c |}) acc ->
  obj_get ("." ++ cls) (build_styles queries st)
    = option_map (fun c => {| backgroundColor := c |}) (last_color cls queries acc).
Proof.
  revert st acc; induction queries as [|q qs IH]; intros st acc H; simpl; [exact H|].
  destruct (q_color q) as [color|]; [|now apply IH].
  destruct (String.eqb color "") eqn:Ec; simpl.
  - rewrite andb_false_r. now apply IH.
  - rewrite andb_true_r. destruct (String.eqb (q_class q) cls) eqn:E2; apply IH;
      rewrite obj_get_set; change (String "." cls) with ("." ++ cls);
      change (String "." (q_class q)) with ("." ++ q_class q); rewrite dot_eqb.
    + apply String.eqb_eq in E2. subst. now rewrite String.eqb_refl.
    + rewrite String.eqb_sym, E2. exact H.
Qed.

Lemma build_styles_nodup queries st :
  NoDup (map fst st) -> NoDup (map fst (build_styles queries st)).
Proof.
  revert st; induction queries as [|q qs IH]; intros st H; simpl; [exact H|].
  destruct (q_color q) as [color|]; [|now apply IH].
  destruct (String.eqb color ""); apply IH; [exact H | now apply nodup_set].
Qed.

(** The theme has one selector per class: the style of [.cls] is the
    background colour of the last rule of class [cls] with a non-empty
    colour, and a class whose rules have no colour (or an empty one) gets
    no style. *)
Theorem buildStyles_last_color queries cls :
  obj_get ("." ++ cls) (buildStyles queries)
    = option_map (fun c => {| backgroundColor := c |}) (last_color cls queries None) /\
  NoDup (map fst (buildStyles queries)).
Proof.
  split; [apply build_styles_get; reflexivity | apply build_styles_nodup; constructor].
Qed.

End StylesExtras.

(* ------------------------------------------------------------------ *)
(** ** Further properties of the static highlighter *)

Module StaticExtras.
Import Text TextFacts Static StaticFacts StaticViews.
Local Open Scope nat_scope.

Lemma cache_get_app_new k v c :
  cache_get k c = None -> cache_get k (c ++ [(k, v)]) = Some v.
Proof.
  induction c as [|[k' v'] c IH]; simpl; intros H.
  - now rewrite String.eqb_refl.
  - destruct (String.eqb k k'); [discriminate|]. now apply IH.
Qed.

Lemma cache_get_none k c : cache_get k c = None -> ~ In k (map fst c).
Proof.
  induction c as [|[k' v'] c IH]; simpl; intros H; [tauto|].
  destruct (String.eqb k k') eqn:E; [discriminate|]. intros [H'|H'].
  - subst. rewrite String.eqb_refl in E. discriminate.
  - now apply IH.
Qed.

Lemma cache_get_in k c dd : cache_get k c = Some dd -> In (k, dd) c.
Proof.
  induction c as [|[k' v'] c IH]; simpl; intros H; [discriminate|].
  destruct (String.eqb k k') eqn:E.
  - apply String.eqb_eq in E. injection H as <-. subst. now left.
  - right. now apply IH.
Qed.

(** The pool memoizes: after [getDecoration] the key maps to the returned
    decoration, and asking again returns it without touching the pool.  A
    new key gets the freshly built decoration appended at the end; a known
    key leaves the pool as it was. *)
Theorem getDecoration_memo t cls attrs c :
  let key := cache_key t cls attrs in
  match getDecoration t cls attrs c with
  | (inr dd, c') =>
      cache_get key c' = Some dd /\ getDecoration t cls attrs c' = (inr dd, c') /\
      (cache_get key c = None -> dd = make_decoration t cls attrs /\ c' = c ++ [(key, dd)]) /\
      (cache_get key c <> None -> c' = c)
  | (inl _, _) => False
  end.
Proof.
  intros key. unfold getDecoration. fold key.
  destruct (cache_get key c) as [dd|] eqn:E.
  - rewrite E. split; [reflexivity|]. split; [reflexivity|].
    split; [intros H0; discriminate H0 | intros _; reflexivity].
  - rewrite cache_get_app_new by exact E. split; [reflexivity|]. split; [reflexivity|].
    split; [intros _; split; reflexivity | intros H0; contradiction].
Qed.

Lemma cache_key_type t1 c1 a1 t2 c2 a2 :
  cache_key t1 c1 a1 = cache_key t2 c2 a2 -> t1 = t2.
Proof. destruct t1, t2; simpl; intros H; try reflexivity; discriminate H. Qed.

Lemma getDecoration_ok t cls attrs :
  RunsQ pool_ok (getDecoration t cls attrs) (fun dd => deco_type dd = t).
Proof.
  intros c [Hnd Hwf]. unfold getDecoration.
  destruct (cache_get (cache_key t cls attrs) c) as [dd|] eqn:E.
  - exists dd, c. split; [reflexivity|]. split; [|split; assumption].
    apply cache_get_in in E. destruct (Hwf _ _ E) as (t' & cls' & a' & Hk & Hd).
    apply cache_key_type in Hk. rewrite Hd, <- Hk. destruct t; reflexivity.
  - eexists; eexists. split; [reflexivity|]. split; [destruct t; reflexivity|]. split.
    + rewrite map_app. simpl. apply NoDup_app; auto.
      * repeat constructor. simpl; tauto.
      * intros k Hk [Hk'|[]]. subst. apply (cache_get_none _ _ E Hk).
    + intros k dd Hin. apply in_app_or in Hin as [Hin|[Hin|[]]]; [now apply Hwf|].
      injection Hin as <- <-. eauto.
Qed.

Lemma runs_bind {A B} P (m : M A) (k : A -> M B) Q R :
  RunsQ P m Q -> (forall a, Q a -> RunsQ P (k a) R) -> RunsQ P (bind m k) R.
Proof.
  intros Hm Hk c Hc. destruct (Hm c Hc) as (a & c1 & E & Ha & Hc1).
  destruct (Hk a Ha c1 Hc1) as (b & c2 & E2 & Hb & Hc2).
  exists b, c2. unfold bind. now rewrite E.
Qed.

Lemma runs_ret {A} P (a : A) (Q : A -> Prop) : Q a -> RunsQ P (ret a) Q.
Proof. intros Ha c Hc. exists a, c. auto. Qed.

Lemma runs_weaken {A} P (m : M A) (Q Q' : A -> Prop) :
  RunsQ P m Q -> (forall a, Q a -> Q' a) -> RunsQ P m Q'.
Proof.
  intros Hm HQ c Hc. destruct (Hm c Hc) as (a & c1 & E & Ha & Hc1). exists a, c1. auto.
Qed.

Lemma fails_bind_l {A B} P (m : M A) (k : A -> M B) : Fails P m -> Fails P (bind m k).
Proof.
  intros Hm c Hc. destruct (Hm c Hc) as (e & c1 & E & Hc1). exists e, c1.
  unfold bind. now rewrite E.
Qed.

Lemma fails_bind_r {A B} P (m : M A) (k : A -> M B) Q :
  RunsQ P m Q -> (forall a, Q a -> Fails P (k a)) -> Fails P (bind m k).
Proof.
  intros Hm Hk c Hc. destruct (Hm c Hc) as (a & c1 & E & Ha & Hc1).
  destruct (Hk a Ha c1 Hc1) as (e & c2 & E2 & Hc2). exists e, c2.
  unfold bind. now rewrite E.
Qed.

Lemma createRange_runs P dd from to :
  (deco_type dd = TMark -> from < to) -> (deco_type dd = TLine -> from = to) ->
  RunsQ P (createRange dd from to)
    (fun r => r_from r = from /\ r_to r = to /\ r_deco r = dd).
Proof.
  intros H1 H2 c Hc. unfold createRange. destruct dd; simpl in *.
  - replace (to <=? from) with false by (symmetry; apply Nat.leb_gt; auto).
    do 2 eexists; split; [reflexivity | simpl; repeat split; auto].
  - rewrite (H2 eq_refl), Nat.eqb_refl. simpl.
    do 2 eexists; split; [reflexivity | simpl; repeat split; auto].
  - do 2 eexists; split; [reflexivity | simpl; repeat split; auto].
Qed.

Lemma createRange_fails P dd from to :
  deco_type dd = TMark -> to <= from -> Fails P (createRange dd from to).
Proof.
  intros H1 H2 c Hc. unfold createRange. destruct dd; try discriminate.
  replace (to <=? from) with true by (symmetry; apply Nat.leb_le; auto).
  do 2 eexists; split; [reflexivity | exact Hc].
Qed.

(** Invariance of the pool. *)
Lemma preserves_bind {A B} P (m : M A) (k : A -> M B) :
  Preserves P m -> (forall a, Preserves P (k a)) -> Preserves P (bind m k).
Proof.
  intros Hm Hk c Hc. unfold bind. specialize (Hm c Hc).
  destruct (m c) as [[e|a] c1]; simpl in *; [exact Hm|]. now apply Hk.
Qed.

Lemma preserves_ret {A} P (a : A) : Preserves P (ret a).
Proof. intros c Hc. exact Hc. Qed.

Lemma preserves_throw {A} P e : Preserves P (@throw A e).
Proof. intros c Hc. exact Hc. Qed.

Lemma preserves_try_catch {A} P (m : M A) h :
  Preserves P m -> (forall e, Preserves P (h e)) -> Preserves P (try_catch m h).
Proof.
  intros Hm Hh c Hc. unfold try_catch. specialize (Hm c Hc).
  destruct (m c) as [[e|a] c1]; simpl in *; [now apply Hh | exact Hm].
Qed.

Lemma preserves_getDecoration t cls attrs : Preserves pool_ok (getDecoration t cls attrs).
Proof.
  intros c Hc. destruct (getDecoration_ok t cls attrs c Hc) as (dd & c1 & E & _ & H1).
  now rewrite E.
Qed.

Lemma preserves_createRange P dd from to : Preserves P (createRange dd from to).
Proof.
  intros c Hc. unfold createRange. destruct dd;
    [destruct (to <=? from) | destruct (negb _) |]; exact Hc.
Qed.

Lemma in_skipn_in {A} n (l : list A) x : In x (skipn n l) -> In x l.
Proof.
  intros H. rewrite <- (firstn_skipn n l). apply in_or_app. now right.
Qed.

Lemma preserves_cleanup : Preserves pool_ok cleanup_m.
Proof.
  intros c [Hnd Hwf]. simpl. unfold cleanup. destruct (100 <? length c); [|split; assumption].
  split.
  - rewrite <- (firstn_skipn (length c - 50) c) in Hnd. rewrite map_app in Hnd.
    now apply NoDup_app_remove_l in Hnd.
  - intros k dd Hin. apply Hwf. eapply in_skipn_in; exact Hin.
Qed.

Ltac preserves_step :=
  match goal with
  | |- Preserves _ (bind _ _) => apply preserves_bind; [|intros]
  | |- Preserves _ (ret _) => apply preserves_ret
  | |- Preserves _ (throw _) => apply preserves_throw
  | |- Preserves _ (try_catch _ _) => apply preserves_try_catch; [|intros]
  | |- Preserves _ (getDecoration _ _ _) => apply preserves_getDecoration
  | |- Preserves _ (createRange _ _ _) => apply preserves_createRange
  | |- Preserves _ cleanup_m => apply preserves_cleanup
  | |- Preserves _ (match ?x with _ => _ end) => destruct x
  end.

Lemma preserves_process_groups linePos gs acc : Preserves pool_ok (process_groups linePos gs acc).
Proof.
  revert acc; induction gs as [|g gs IH]; intros acc; simpl; [apply preserves_ret|].
  apply preserves_bind; [|intros; apply IH].
  unfold process_group. repeat preserves_step.
Qed.

Lemma preserves_process_match props (d : doc) q m acc :
  Preserves pool_ok (process_match props d q m acc).
Proof.
  unfold process_match. cbv zeta.
  repeat first [preserves_step | apply preserves_process_groups].
Qed.

Lemma preserves_run_pairs props (d : doc) l acc : Preserves pool_ok (run_pairs props d l acc).
Proof.
  revert acc; induction l as [|[q m] l IH]; intros acc; simpl; [apply preserves_ret|].
  apply preserves_bind; [apply preserves_process_match | intros; apply IH].
Qed.

Lemma preserves_line_regions lc : Preserves pool_ok (line_regions lc).
Proof.
  induction lc as [|[pos classes] lc IH]; simpl; [apply preserves_ret|].
  repeat first [preserves_step | apply IH].
Qed.

(** The pool stays a well-formed [Map] across a pass, whether the pass
    returns or throws: no key twice, every entry the decoration built for
    its key; and from such a pool [getDecoration] returns a decoration of
    the requested kind. *)
Theorem pool_ok_after_pass rx props (d : doc) vis queries c :
  pool_ok c ->
  pool_ok (snd (getDeco rx props d vis queries c)) /\
  (forall t cls attrs dd c', getDecoration t cls attrs c = (inr dd, c') -> deco_type dd = t).
Proof.
  intros Hc. split.
  - assert (Hp : Preserves pool_ok (getDeco rx props d vis queries)).
    { unfold getDeco. apply preserves_bind.
      + intros c0 H0. rewrite scan_parts_pairs. now apply preserves_run_pairs.
      + intros acc. unfold finalize.
        repeat first [preserves_step | apply preserves_line_regions]. }
    now apply Hp.
  - intros t cls attrs dd c' E. destruct (getDecoration_ok t cls attrs c Hc) as (dd' & c1 & E' & H & _).
    rewrite E in E'. injection E' as -> _. exact H.
Qed.

Lemma pool_ok_nil : pool_ok [].
Proof. split; [constructor | intros k dd []]. Qed.

Lemma pool_ok_after_pass_witness :
  pool_ok [] /\
  pool_ok (snd (getDeco (fun _ _ _ _ => None) (fun _ => None) (Samples.text "cat cat")
                 [(0, 7)] [word_rule "hl" "cat"] [])) /\
  (forall t cls attrs dd c', getDecoration t cls attrs [] = (inr dd, c') -> deco_type dd = t).
Proof.
  split; [apply pool_ok_nil|].
  apply pool_ok_after_pass. apply pool_ok_nil.
Defined.

Lemma process_group_runs linePos acc g :
  RunsQ pool_ok (process_group linePos acc g)
    (fun acc' => tokenDecos acc' = tokenDecos acc /\ widgetDecos acc' = widgetDecos acc /\
       lineClasses acc' = lineClasses acc /\
       exists new, groupDecos acc' = groupDecos acc ++ new /\
         map (fun r => (r_from r, r_to r)) new = group_regions linePos [g] /\
         Forall (fun r => deco_type (r_deco r) = TMark) new).
Proof.
  intros c Hc. unfold process_group, try_catch. destruct g as [name [[gf gt]|]]; simpl.
  - destruct (getDecoration_ok TMark name None c Hc) as (dd & c1 & E & Hk & Hc1).
    unfold bind. rewrite E. destruct dd as [cls' a'| |]; try discriminate Hk.
    unfold createRange. destruct (linePos + gt <=? linePos + gf) eqn:L; simpl.
    + exists acc, c1. split; [reflexivity|]. split; [|exact Hc1].
      repeat split; auto. exists []. rewrite app_nil_r. split; [reflexivity|].
      apply Nat.leb_le in L. replace (gf <? gt) with false by (symmetry; apply Nat.ltb_ge; lia).
      split; [reflexivity | constructor].
    + do 2 eexists. split; [reflexivity|]. split; [|exact Hc1]. simpl.
      repeat split; auto. eexists. split; [reflexivity|].
      apply Nat.leb_gt in L. replace (gf <? gt) with true by (symmetry; apply Nat.ltb_lt; lia).
      split; [reflexivity | repeat constructor].
  - exists acc, c. split; [reflexivity|]. split; [|exact Hc].
    repeat split; auto. exists []. rewrite app_nil_r. split; [reflexivity|].
    split; [reflexivity | constructor].
Qed.

Lemma group_regions_cons linePos g gs :
  group_regions linePos (g :: gs) = group_regions linePos [g] ++ group_regions linePos gs.
Proof. unfold group_regions. simpl. now rewrite app_nil_r. Qed.

Lemma process_groups_runs linePos gs acc :
  RunsQ pool_ok (process_groups linePos gs acc)
    (fun acc' => tokenDecos acc' = tokenDecos acc /\ widgetDecos acc' = widgetDecos acc /\
       lineClasses acc' = lineClasses acc /\
       exists new, groupDecos acc' = groupDecos acc ++ new /\
         map (fun r => (r_from r, r_to r)) new = group_regions linePos gs /\
         Forall (fun r => deco_type (r_deco r) = TMark) new).
Proof.
  revert acc; induction gs as [|g gs IH]; intros acc; simpl.
  - apply runs_ret. repeat split; auto. exists []. rewrite app_nil_r. repeat constructor.
  - eapply runs_bind; [apply process_group_runs|].
    intros a (H1 & H2 & H3 & new1 & H4 & H5 & H6).
    eapply runs_weaken; [apply IH|].
    intros b (G1 & G2 & G3 & new2 & G4 & G5 & G6).
    repeat split; try congruence. exists (new1 ++ new2). split.
    + rewrite G4, H4, app_assoc. reflexivity.
    + rewrite map_app, H5, G5, <- group_regions_cons. split; [reflexivity|].
      apply Forall_app. auto.
Qed.

(** The groups of a match: from a well-formed pool, the [forEach] over
    [match.indices.groups] always completes; it adds one mark region
    [[linePos + from, linePos + to)] per group that has indices and a
    non-empty span, in order, skips the other groups (the [catch]), and
    touches neither the token, widget and line outputs. *)
Theorem groups_skip_bad_spans linePos gs acc c :
  pool_ok c ->
  exists acc' c', process_groups linePos gs acc c = (inr acc', c') /\ pool_ok c' /\
    tokenDecos acc' = tokenDecos acc /\ widgetDecos acc' = widgetDecos acc /\
    lineClasses acc' = lineClasses acc /\
    exists new, groupDecos acc' = groupDecos acc ++ new /\
      map (fun r => (r_from r, r_to r)) new = group_regions linePos gs /\
      Forall (fun r => deco_type (r_deco r) = TMark) new.
Proof.
  intros Hc. destruct (process_groups_runs linePos gs acc c Hc) as (a & c' & E & Ha & Hc').
  exists a, c'. auto.
Qed.

Lemma groups_skip_bad_spans_witness :
  let gs := [("a"%string, Some (0, 2)); ("b"%string, None); ("c"%string, Some (3, 3));
            ("d"%string, Some (4, 6))] in
  group_regions 10 gs = [(10, 12); (14, 16)] /\
  exists acc' c', process_groups 10 gs empty_acc [] = (inr acc', c') /\ pool_ok c' /\
    tokenDecos acc' = [] /\ widgetDecos acc' = [] /\ lineClasses acc' = [] /\
    exists new, groupDecos acc' = [] ++ new /\
      map (fun r => (r_from r, r_to r)) new = group_regions 10 gs /\
      Forall (fun r => deco_type (r_deco r) = TMark) new.
Proof.
  split; [reflexivity|].
  apply (groups_skip_bad_spans 10 _ empty_acc []). apply pool_ok_nil.
Defined.

Lemma runs_true {A} P (m : M A) Q : RunsQ P m Q -> RunsQ P m (fun _ => True).
Proof. intros H. eapply runs_weaken; [exact H | auto]. Qed.

Ltac runs_step :=
  match goal with
  | |- RunsQ _ (@bind Deco _ (getDecoration ?t _ _) _) _ =>
      eapply runs_bind; [apply getDecoration_ok | intros ? ?]
  | |- RunsQ _ (@bind Region _ (createRange _ _ _) _) _ =>
      eapply runs_bind; [apply createRange_runs; intros; first [congruence | lia] | intros ? ?]
  | |- RunsQ _ (@bind _ _ ?m _) _ =>
      apply (runs_bind _ m _ (fun _ => True)); [|intros ? ?]
  | |- RunsQ _ (ret _) _ => apply runs_ret; auto
  | |- RunsQ _ (process_groups _ _ _) _ => apply (runs_true _ _ _ (process_groups_runs _ _ _))
  | |- RunsQ _ (if ?b then _ else _) _ => destruct b
  | |- RunsQ _ (match ?x with _ => _ end) _ => destruct x
  end.

Lemma process_match_cases props (d : doc) q m acc :
  (empty_token props d (q, m) = true -> Fails pool_ok (process_match props d q m acc)) /\
  (empty_token props d (q, m) = false ->
     RunsQ pool_ok (process_match props d q m acc) (fun _ => True)).
Proof.
  unfold empty_token, match_excluded, token_marked, process_match. simpl fst; simpl snd.
  cbv zeta. destruct (excluded_section props (line_start d (cm_from m) + 1)); simpl.
  { split; [discriminate | intros _; apply runs_ret; auto]. }
  destruct (negb _ || contains (q_mark q) MMatch) eqn:T; simpl.
  - split.
    + intros H. apply Nat.leb_le in H. apply fails_bind_l.
      eapply fails_bind_r; [apply getDecoration_ok|]. intros dd Hdd.
      apply fails_bind_l. now apply createRange_fails.
    + intros H. apply Nat.leb_gt in H. repeat runs_step.
  - split; [discriminate|]. intros _. repeat runs_step.
Qed.

Lemma run_pairs_returns props (d : doc) l acc c :
  pool_ok c -> returns (run_pairs props d l acc c) = negb (existsb (empty_token props d) l).
Proof.
  revert acc c; induction l as [|[q m] l IH]; intros acc c Hc; [reflexivity|].
  simpl. unfold bind. destruct (empty_token props d (q, m)) eqn:Et; simpl.
  - destruct (proj1 (process_match_cases props d q m acc) Et c Hc) as (e & c1 & E & _).
    now rewrite E.
  - destruct (proj2 (process_match_cases props d q m acc) Et c Hc) as (a & c1 & E & _ & Hc1).
    rewrite E. now apply IH.
Qed.

Lemma line_regions_runs lc : RunsQ pool_ok (line_regions lc) (fun _ => True).
Proof.
  induction lc as [|[pos classes] lc IH]; simpl; [apply runs_ret; auto|].
  eapply runs_bind; [apply getDecoration_ok|]. intros dd Hdd.
  eapply runs_bind; [apply createRange_runs; intros; [congruence | reflexivity]|].
  intros r _. eapply runs_bind; [exact IH|]. intros rs _. apply runs_ret; auto.
Qed.

Lemma finalize_runs acc : RunsQ pool_ok (finalize acc) (fun _ => True).
Proof.
  unfold finalize. eapply runs_bind; [apply line_regions_runs|]. intros ls _.
  apply (runs_bind _ _ _ (fun _ => True)).
  - intros c Hc. exists tt, (cleanup c). split; [reflexivity|]. split; [exact I|].
    exact (preserves_cleanup c Hc).
  - intros _ _. apply runs_ret; auto.
Qed.

Lemma getDeco_returns rx props (d : doc) vis queries c :
  pool_ok c ->
  returns (getDeco rx props d vis queries c)
    = negb (existsb (empty_token props d) (scan_pairs rx d vis queries)).
Proof.
  intros Hc. unfold getDeco, bind. rewrite scan_parts_pairs.
  rewrite <- (run_pairs_returns props d _ empty_acc c Hc).
  pose proof (preserves_run_pairs props d (scan_pairs rx d vis queries) empty_acc c Hc) as Hp.
  destruct (run_pairs props d (scan_pairs rx d vis queries) empty_acc c) as [[e|acc] c1];
    [reflexivity|]. simpl in Hp |- *.
  destruct (finalize_runs acc c1 Hp) as (res & c2 & E & _ & _). now rewrite E.
Qed.

(** From a well-formed pool, a pass throws exactly when one of the
    (rule, match) pairs it processes is outside the excluded sections,
    is marked as a token, and has an empty span: every other step (line
    classes, widgets, groups, line decorations, eviction) always
    succeeds. *)
Theorem pass_throws_iff_empty_token rx props (d : doc) vis queries c :
  pool_ok c ->
  returns (getDeco rx props d vis queries c)
    = negb (existsb (empty_token props d) (scan_pairs rx d vis queries)).
Proof. apply getDeco_returns. Qed.

Lemma pass_throws_iff_empty_token_witness :
  let q := {| q_class := "hl"%string; q_color := None; q_regex := true;
              q_query := Samples.text "^"; q_mark := None |} in
  returns (getDeco caret_regexp_cursor (fun _ => None) (Samples.text "ab") [(0, 2)] [q] [])
    = false /\
  returns (getDeco caret_regexp_cursor (fun _ => None) (Samples.text "ab") [(0, 2)] [q] [])
    = negb (existsb (empty_token (fun _ => None) (Samples.text "ab"))
                    (scan_pairs caret_regexp_cursor (Samples.text "ab") [(0, 2)] [q])).
Proof.
  split; [vm_compute; reflexivity|].
  apply pass_throws_iff_empty_token. apply pool_ok_nil.
Defined.

Lemma in_query_pairs rx (d : doc) part qs q m :
  In (q, m) (query_pairs rx d part qs) ->
  In q qs /\ exists ms, make_cursor rx d q part = Some ms /\ In m ms.
Proof.
  induction qs as [|q' qs IH]; simpl; [tauto|].
  destruct (make_cursor rx d q' part) as [ms|] eqn:E.
  - intros H. apply in_app_or in H as [H|H].
    + apply in_map_iff in H as (m' & Hm & Hin). injection Hm as <- <-.
      split; [now left|]. now exists ms.
    + destruct (IH H) as [H1 H2]. split; [now right | exact H2].
  - intros H. destruct (IH H) as [H1 H2]. split; [now right | exact H2].
Qed.

(** A pass over literal rules only (no [regex] rule) never throws, from a
    well-formed pool: the search cursor finds non-empty occurrences only,
    so no mark decoration is empty. *)
Theorem literal_rules_never_throw rx props (d : doc) vis queries c :
  pool_ok c -> forallb (fun q => negb (q_regex q)) queries = true ->
  returns (getDeco rx props d vis queries c) = true.
Proof.
  intros Hc Hq. rewrite (getDeco_returns rx props d vis queries c Hc).
  apply negb_true_iff. apply not_true_is_false. intros H.
  apply existsb_exists in H as ([q m] & Hin & Hx).
  unfold scan_pairs in Hin. apply in_flat_map in Hin as (part & _ & Hin).
  apply in_query_pairs in Hin as (Hq' & ms & Hms & Hm).
  rewrite forallb_forall in Hq. specialize (Hq q Hq'). apply negb_true_iff in Hq.
  unfold make_cursor in Hms. rewrite Hq in Hms. injection Hms as <-.
  apply in_map_iff in Hm as ([f t] & <- & Hft).
  unfold search_cursor in Hft. destruct (q_query q) as [|ch w] eqn:Eq; [contradiction|].
  rewrite <- Eq in Hft. apply search_from_sound in Hft as (Ht & _).
  rewrite Eq in Ht. simpl in Ht.
  unfold empty_token in Hx. simpl in Hx.
  replace (t <=? f) with false in Hx by (symmetry; apply Nat.leb_gt; lia).
  rewrite andb_false_r in Hx. discriminate.
Qed.

Lemma literal_rules_never_throw_witness :
  let q := {| q_class := "hl"%string; q_color := None; q_regex := false;
              q_query := Samples.text "cat"; q_mark := Some [MMatch; MLine; MStart; MEnd] |} in
  returns (getDeco (fun _ _ _ _ => None) (fun _ => None) (Samples.text "cat cat")
             [(0, 7)] [q] []) = true.
Proof.
  apply literal_rules_never_throw; [apply pool_ok_nil | reflexivity].
Defined.

(** Sorting. *)
Lemma insert_perm x l : Permutation (insert_by_from x l) (x :: l).
Proof.
  induction l as [|y l IH]; simpl; [reflexivity|].
  destruct (r_from y <? r_from x); [|reflexivity].
  rewrite IH. apply perm_swap.
Qed.

Lemma sort_perm l : Permutation (sort_by_from l) l.
Proof.
  induction l as [|x l IH]; simpl; [reflexivity|].
  rewrite insert_perm. now apply perm_skip.
Qed.

Lemma insert_filter_from k x l :
  filter (fun r => r_from r =? k) (insert_by_from x l)
  = filter (fun r => r_from r =? k) (x :: l).
Proof.
  induction l as [|y l IH]; simpl; [reflexivity|].
  destruct (r_from y <? r_from x) eqn:E; [|reflexivity].
  apply Nat.ltb_lt in E. simpl. rewrite IH. simpl.
  destruct (r_from y =? k) eqn:Ey, (r_from x =? k) eqn:Ex; try reflexivity.
  apply Nat.eqb_eq in Ey, Ex. lia.
Qed.

(** The [sort((a, b) => a.from - b.from)] applied to each of the four
    decoration arrays: the result is a rearrangement of the array, ordered
    by [from], and regions with the same [from] keep the order in which
    the scan produced them (the sort is stable). *)
Theorem sort_by_from_stable l :
  Permutation (sort_by_from l) l /\ sorted_by_from (sort_by_from l) /\
  forall k, filter (fun r => r_from r =? k) (sort_by_from l)
            = filter (fun r => r_from r =? k) l.
Proof.
  split; [apply sort_perm|]. split; [apply sort_sorted|].
  intros k. induction l as [|x l IH]; simpl; [reflexivity|].
  rewrite insert_filter_from. simpl. now rewrite IH.
Qed.

(** Results of a computation, whatever the pool. *)
Lemma post_bind {A B} (m : M A) (k : A -> M B) Q R :
  Post m Q -> (forall a, Q a -> Post (k a) R) -> Post (bind m k) R.
Proof.
  intros Hm Hk c. unfold bind. specialize (Hm c).
  destruct (m c) as [[e|a] c1]; simpl in *; [exact I | exact (Hk a Hm c1)].
Qed.

Lemma post_ret {A} (a : A) (Q : A -> Prop) : Q a -> Post (ret a) Q.
Proof. intros H c. exact H. Qed.

Lemma post_throw {A} e (Q : A -> Prop) : Post (throw e) Q.
Proof. intros c. exact I. Qed.

Lemma post_try_catch {A} (m : M A) h Q :
  Post m Q -> (forall e, Post (h e) Q) -> Post (try_catch m h) Q.
Proof.
  intros Hm Hh c. unfold try_catch. specialize (Hm c).
  destruct (m c) as [[e|a] c1]; simpl in *; [apply Hh | exact Hm].
Qed.

Lemma post_true {A} (m : M A) : Post m (fun _ => True).
Proof. intros c. destruct (fst (m c)); exact I. Qed.

Lemma post_weaken {A} (m : M A) (Q R : A -> Prop) :
  Post m Q -> (forall a, Q a -> R a) -> Post m R.
Proof. intros H HQR c. specialize (H c). destruct (fst (m c)); auto. Qed.

Lemma post_createRange dd from to :
  Post (createRange dd from to) (fun r => r_from r = from /\ r_to r = to).
Proof.
  intros c. unfold createRange.
  destruct dd; [destruct (to <=? from) | destruct (negb _) |]; simpl; auto.
Qed.

Ltac lines_step L :=
  match goal with
  | |- Post (@bind Acc _ ?m ?k) ?R =>
      apply (post_bind m k (fun a => lineClasses a = L) R); [|intros ? ?]
  | |- Post (@bind _ _ ?m ?k) ?R =>
      apply (post_bind m k (fun _ => True) R); [apply post_true | intros ? ?]
  | |- Post (ret _) _ => apply post_ret
  | |- Post (throw _) _ => apply post_throw
  | |- Post (try_catch _ _) _ => apply post_try_catch; [|intros ?]
  | |- Post (if ?b then _ else _) _ => destruct b
  | |- Post (match ?x with _ => _ end) _ => destruct x
  end.

Lemma process_groups_lines linePos gs acc :
  Post (process_groups linePos gs acc) (fun a => lineClasses a = lineClasses acc).
Proof.
  revert acc; induction gs as [|g gs IH]; intros acc; simpl.
  - now apply post_ret.
  - apply (post_bind _ _ (fun a => lineClasses a = lineClasses acc)).
    + unfold process_group. repeat lines_step (lineClasses acc); reflexivity.
    + intros a Ha. eapply post_weaken; [apply IH|]. simpl. congruence.
Qed.

Ltac lines_close :=
  match goal with
  | |- Post (process_groups _ _ _) _ =>
      eapply post_weaken; [apply process_groups_lines|]; simpl; intros; congruence
  | _ => unfold push_token, push_widget, with_line_class; simpl; congruence
  end.

Lemma process_match_lines props (d : doc) q m acc :
  Post (process_match props d q m acc)
    (fun a => lineClasses a = lineClasses acc \/
              lineClasses a = add_line_class (line_start d (cm_from m)) (q_class q)
                                (lineClasses acc)).
Proof.
  unfold process_match. cbv zeta.
  destruct (excluded_section props (line_start d (cm_from m) + 1)).
  { apply post_ret. now left. }
  destruct (contains (q_mark q) MLine).
  - apply (post_weaken _ (fun a => lineClasses a
             = add_line_class (line_start d (cm_from m)) (q_class q) (lineClasses acc)));
      [|intros; now right].
    repeat lines_step (add_line_class (line_start d (cm_from m)) (q_class q) (lineClasses acc));
      lines_close.
  - apply (post_weaken _ (fun a => lineClasses a = lineClasses acc)); [|intros; now left].
    repeat lines_step (lineClasses acc); lines_close.
Qed.

Lemma line_start_idem (d : doc) p : line_start d (line_start d p) = line_start d p.
Proof.
  induction p as [|p IH]; [reflexivity|]. simpl.
  destruct (nth_error d p) as [ch|] eqn:E; [|exact IH].
  destruct (Ascii.eqb ch "010"%char) eqn:Ec; [|exact IH].
  simpl. now rewrite E, Ec.
Qed.

Lemma add_line_class_hd k cls (y : nat * list string) lc :
  fst y < k -> HdRel (fun x z => fst x < fst z) y lc ->
  HdRel (fun x z => fst x < fst z) y (add_line_class k cls lc).
Proof.
  intros Hy H. destruct lc as [|[k' cs] lc]; simpl; [now constructor|].
  inversion H; subst. simpl in *.
  destruct (k' =? k); [now constructor|].
  destruct (k <? k'); now constructor.
Qed.

Lemma add_line_class_sorted k cls lc :
  Sorted (fun x y => fst x < fst y) lc ->
  Sorted (fun x y => fst x < fst y) (add_line_class k cls lc).
Proof.
  induction lc as [|[k' cs] lc IH]; intros H; simpl; [repeat constructor|].
  apply Sorted_inv in H as [Hl Hh].
  destruct (k' =? k) eqn:E1.
  - constructor; [exact Hl|]. inversion Hh; constructor. assumption.
  - destruct (k <? k') eqn:E2.
    + apply Nat.ltb_lt in E2. constructor; [now constructor | now constructor].
    + apply Nat.eqb_neq in E1. apply Nat.ltb_ge in E2.
      constructor; [now apply IH|]. apply add_line_class_hd; [simpl; lia | exact Hh].
Qed.

Lemma add_line_class_keys (P : nat -> Prop) k cls lc :
  P k -> Forall (fun kv => P (fst kv)) lc -> Forall (fun kv => P (fst kv)) (add_line_class k cls lc).
Proof.
  intros Hk; induction lc as [|[k' cs] lc IH]; intros H; simpl; [now constructor|].
  inversion H; subst.
  destruct (k' =? k); [now constructor|].
  destruct (k <? k'); constructor; auto.
Qed.

Lemma run_pairs_lines props (d : doc) l acc :
  line_keys_ok d (lineClasses acc) ->
  Post (run_pairs props d l acc) (fun a => line_keys_ok d (lineClasses a)).
Proof.
  revert acc; induction l as [|[q m] l IH]; intros acc Hacc; simpl.
  - now apply post_ret.
  - apply (post_bind _ _ (fun a => line_keys_ok d (lineClasses a))); [|exact IH].
    eapply post_weaken; [apply process_match_lines|]. intros a [Ha|Ha]; rewrite Ha; [exact Hacc|].
    destruct Hacc as [Hs Hf]. split; [now apply add_line_class_sorted|].
    apply (add_line_class_keys (fun k => line_start d k = k)); [apply line_start_idem | exact Hf].
Qed.

Lemma line_regions_spans lc :
  Post (line_regions lc)
    (fun rs => map (fun r => (r_from r, r_to r)) rs = map (fun kv => (fst kv, fst kv)) lc).
Proof.
  induction lc as [|[pos classes] lc IH]; simpl; [now apply post_ret|].
  apply (post_bind _ _ (fun _ => True)); [apply post_true|]. intros dd _.
  eapply post_bind; [apply post_createRange|]. intros r [H1 H2].
  eapply post_bind; [apply IH|]. intros rs Hrs.
  apply post_ret. simpl. now rewrite H1, H2, Hrs.
Qed.

Lemma spans_sorted (lc : list (nat * list string)) (rs : list Region) :
  Sorted (fun x y => fst x < fst y) lc ->
  map (fun r => (r_from r, r_to r)) rs = map (fun kv => (fst kv, fst kv)) lc ->
  Sorted (fun x y => r_from x < r_from y) rs.
Proof.
  revert rs; induction lc as [|kv lc IH]; intros [|r rs] Hs Hm; simpl in Hm;
    try discriminate; [constructor|].
  injection Hm as H1 H1' H2. apply Sorted_inv in Hs as [Hl Hh].
  constructor; [now apply IH|].
  destruct rs as [|r' rs]; constructor.
  destruct lc as [|kv' lc]; simpl in H2; [discriminate|].
  injection H2 as H3 _ _. inversion Hh; subst. congruence.
Qed.

Lemma sorted_lt_le rs :
  Sorted (fun x y => r_from x < r_from y) rs -> sorted_by_from rs.
Proof.
  unfold sorted_by_from. induction 1 as [|r rs Hs IH Hh]; constructor; [exact IH|].
  destruct Hh; constructor. lia.
Qed.

Lemma spans_forall (d : doc) (lc : list (nat * list string)) (rs : list Region) :
  Forall (fun kv => line_start d (fst kv) = fst kv) lc ->
  map (fun r => (r_from r, r_to r)) rs = map (fun kv => (fst kv, fst kv)) lc ->
  Forall (fun r => r_to r = r_from r /\ line_start d (r_from r) = r_from r) rs.
Proof.
  intros Hf Hm. apply Forall_forall. intros r Hr.
  assert (Hin : In (r_from r, r_to r) (map (fun kv => (fst kv, fst kv)) lc))
    by (rewrite <- Hm; now apply in_map_iff; exists r).
  apply in_map_iff in Hin as (kv & Hkv & Hin). injection Hkv as E1 E2.
  rewrite Forall_forall in Hf. specialize (Hf kv Hin). split; congruence.
Qed.

(** The line decorations of a pass that completes: at most one per line,
    in increasing order, each a zero-length range at the start of its
    line ([lineAt(from).from]): [lineClasses] gathers the classes of a line
    under one key, and [Decoration.line] is placed at that key. *)
Theorem line_decorations_one_per_line rx props (d : doc) vis queries c :
  match fst (getDeco rx props d vis queries c) with
  | inr res =>
      Sorted (fun x y => r_from x < r_from y) (line res) /\
      Forall (fun r => r_to r = r_from r /\ line_start d (r_from r) = r_from r) (line res)
  | inl _ => True
  end.
Proof.
  assert (H : Post (getDeco rx props d vis queries)
                (fun res => Sorted (fun x y => r_from x < r_from y) (line res) /\
                   Forall (fun r => r_to r = r_from r /\ line_start d (r_from r) = r_from r)
                          (line res))).
  { unfold getDeco.
    apply (post_bind _ _ (fun a => line_keys_ok d (lineClasses a))).
    - intros c0. rewrite scan_parts_pairs. apply run_pairs_lines.
      split; constructor.
    - intros acc [Hs Hf]. unfold finalize.
      eapply post_bind; [apply line_regions_spans|]. intros rs Hrs.
      apply (post_bind _ _ (fun _ => True)); [apply post_true|]. intros _ _.
      apply post_ret. simpl.
      assert (Hsr : Sorted (fun x y => r_from x < r_from y) rs)
        by (eapply spans_sorted; eauto).
      rewrite (sort_of_sorted rs (sorted_lt_le rs Hsr)).
      split; [exact Hsr | eapply spans_forall; eauto]. }
  exact (H c).
Qed.

End StaticExtras.
